(** * 911 Intel bot: rate limiter, retrying client, conversation store, reaper

    A shallow embedding of the stateful core of [bot.py]:

    - [RateLimiter] ([add_call], [get_retry_after]), the sliding-window
      limiter over a [defaultdict(list)] of call timestamps;
    - [get_gemini_response], the bounded retry loop around the completion
      service;
    - [forget] and [check_conversation_age], which delete sessions from the
      process-wide [conversations] dictionary, with [get_conversation] and
      [check_expiry];
    - the rate-limit gate at the head of the commands, and the splitting of
      a long response into embeds;
    - [perform_serpapi_search] and [format_search_results_for_gemini];
    - [simulate_forget_command] of [bot_tester.py].

    Clock readings ([time.time()], [datetime.now()]) are inputs of the
    embedded functions.  For the limiter a point in time is an integer
    number of clock ticks of any fixed length, and [time_frame] is counted
    in the same ticks; a [datetime] is counted in microseconds, its own
    resolution. *)

From Stdlib Require Import ZArith Lia Ascii String Sorted.
From stdpp Require Import gmap strings list fin_maps pretty.

Local Open Scope Z_scope.

(** ** The sliding-window limiter *)

Module Limiter.

(** [class RateLimiter]: the two configuration fields and the
    [defaultdict(list)] from key to recorded call times. *)
Record RateLimiter := mkRateLimiter {
  max_calls : Z;
  time_frame : Z;
  calls : gmap string (list Z)
}.

(** [RateLimiter.__init__]. *)
Definition init (max_calls time_frame : Z) : RateLimiter :=
  mkRateLimiter max_calls time_frame ∅.

Definition with_calls (self : RateLimiter) (c : gmap string (list Z))
  : RateLimiter :=
  mkRateLimiter (max_calls self) (time_frame self) c.

(** [d[key]] on a [defaultdict(list)]: a missing key is inserted with a
    fresh empty list before the lookup returns. *)
Definition getitem (key : string) (d : gmap string (list Z))
  : list Z * gmap string (list Z) :=
  match d !! key with
  | Some l => (l, d)
  | None => ([], <[key := []]> d)
  end.

(** The comprehension of [add_call]: the recorded calls younger than the
    time frame. *)
Definition recent (time_frame current_time : Z) (l : list Z) : list Z :=
  filter (λ call_time, current_time - call_time < time_frame) l.

(** [add_call]: returns [true] when the caller is rate limited. *)
Definition add_call (current_time : Z) (key : string) (self : RateLimiter)
  : bool * RateLimiter :=
  let '(l, c1) := getitem key (calls self) in
  let kept := recent (time_frame self) current_time l in
  let c2 := <[key := kept]> c1 in
  if bool_decide (Z.of_nat (length kept) >= max_calls self)
  then (true, with_calls self c2)
  else (false, with_calls self (<[key := kept ++ [current_time]]> c2)).

(** Python's [min] on a non-empty list, given as head and tail. *)
Definition py_min (x : Z) (l : list Z) : Z := foldl Z.min x l.

(** [get_retry_after]: [now] is the reading of [time.time()] in the last
    line. *)
Definition get_retry_after (now : Z) (key : string) (self : RateLimiter)
  : Z * RateLimiter :=
  let '(l, c1) := getitem key (calls self) in
  match l with
  | [] => (0, with_calls self c1)
  | x :: r => (Z.max 0 (time_frame self - (now - py_min x r)),
               with_calls self c1)
  end.

(** The records held for a key, without the insertion of [getitem]. *)
Definition records (key : string) (self : RateLimiter) : list Z :=
  default [] (calls self !! key).

(** *** Histories of invocations

    The limiter is driven by a sequence of method calls, each with the
    clock reading it observes.  [step] performs one of them and keeps, next
    to the limiter, the log of the admitted calls: key and timestamp of
    every [add_call] that returned [False]. *)

Inductive invocation :=
| AddCall (current_time : Z) (key : string)
| GetRetryAfter (now : Z) (key : string).

Definition clock_of (i : invocation) : Z :=
  match i with
  | AddCall t _ => t
  | GetRetryAfter t _ => t
  end.

Definition step (st : RateLimiter * list (string * Z)) (i : invocation)
  : RateLimiter * list (string * Z) :=
  match i with
  | AddCall t k =>
      let '(limited, self') := add_call t k st.1 in
      (self', if limited then st.2 else st.2 ++ [(k, t)])
  | GetRetryAfter t k => ((get_retry_after t k st.1).2, st.2)
  end.

Definition run (ivs : list invocation) (st : RateLimiter * list (string * Z))
  : RateLimiter * list (string * Z) :=
  foldl step st ivs.

(** The clock never runs backwards: every reading is at least [T] and at
    least the reading before it. *)
Fixpoint clock_from (T : Z) (ivs : list invocation) : Prop :=
  match ivs with
  | [] => True
  | i :: rest => T ≤ clock_of i ∧ clock_from (clock_of i) rest
  end.

(** Timestamps of the calls admitted for [key]. *)
Definition admitted (key : string) (log : list (string * Z)) : list Z :=
  (filter (λ e, e.1 = key) log).*2.

(** Membership of the half-open interval [(t - window, t]]. *)
Definition in_window (window t : Z) (a : Z) : Prop := t - window < a ∧ a ≤ t.

#[global] Instance in_window_dec window t a : Decision (in_window window t a).
Proof. unfold in_window. apply _. Defined.

Definition admitted_in_window (window t : Z) (key : string)
    (log : list (string * Z)) : nat :=
  length (filter (in_window window t) (admitted key log)).

(** The invariant behind the window bound, for one key, at a clock reading
    [T] that no later invocation precedes: every admitted call is at most
    [T]; pruning the stored records at any later reading gives what pruning
    the whole log of admitted calls gives; and the bound holds so far. *)
Definition window_inv (M W : Z) (key : string) (T : Z)
    (st : RateLimiter * list (string * Z)) : Prop :=
  max_calls st.1 = M ∧ time_frame st.1 = W ∧
  Forall (λ a, a ≤ T) (admitted key st.2) ∧
  (∀ c, T ≤ c → recent W c (records key st.1) = recent W c (admitted key st.2)) ∧
  (∀ t, Z.of_nat (admitted_in_window W t key st.2) ≤ M).

(** *** [retry_after] as the specification words it

    Prune first, then measure the time until the oldest surviving record
    leaves the window; zero when nothing is recorded. *)
Definition retry_after_spec (window now : Z) (l : list Z) : Z :=
  match recent window now l with
  | [] => 0
  | x :: r => Z.max 0 (window - (now - py_min x r))
  end.

End Limiter.

(** ** The retrying client *)

Module Client.

(** What one [conversation.send_message(question)] followed by
    [response.text] does: it yields the text, raises
    [BlockedPromptException], or raises another [Exception] whose [str] is
    [e]. *)
Inductive outcome :=
| Text (text : string)
| Blocked
| Failed (e : string).

(** The observable effects of the loop, in order. *)
Inductive event :=
| Send (attempt : nat)
| Sleep (seconds : Z).

Definition refusal : string :=
  "I'm sorry, but I cannot respond to that request as it may violate content safety guidelines.".

Definition difficulties (e : string) : string :=
  "I'm experiencing technical difficulties. Please try again later. Error: "
  +:+ e.

(** The [for attempt in range(max_retries)] loop from iteration [attempt]
    on, with [remaining] iterations left.  [service n] is the outcome of
    the call made in iteration [n].  A loop that runs out of iterations
    falls off the end of the function, which returns [None]. *)
Fixpoint attempts (service : nat → outcome) (max_retries : nat)
    (remaining attempt : nat) (retry_delay : Z)
  : option string * list event :=
  match remaining with
  | O => (None, [])
  | S remaining' =>
      match service attempt with
      | Text text => (Some text, [Send attempt])
      | Blocked => (Some refusal, [Send attempt])
      | Failed e =>
          if bool_decide (Z.of_nat attempt < Z.of_nat max_retries - 1)
          then
            let '(r, tr) :=
              attempts service max_retries remaining' (S attempt)
                       (retry_delay * 2) in
            (r, Send attempt :: Sleep retry_delay :: tr)
          else (Some (difficulties e), [Send attempt])
      end
  end.

(** [get_gemini_response]: [max_retries = 3], [retry_delay = 2]. *)
Definition get_gemini_response (service : nat → outcome)
  : option string * list event :=
  attempts service 3 3 0 2.

Definition sleeps (tr : list event) : list Z :=
  omap (λ ev, match ev with Sleep d => Some d | Send _ => None end) tr.

Definition sends (tr : list event) : nat :=
  length (omap (λ ev, match ev with Send n => Some n | Sleep _ => None end) tr).

(** The trace of a run whose first [n] attempts fail and are retried and
    whose next attempt ends the loop, from iteration [attempt] on. *)
Fixpoint schedule (attempt : nat) (retry_delay : Z) (n : nat) : list event :=
  match n with
  | O => [Send attempt]
  | S n' =>
      Send attempt :: Sleep retry_delay
        :: schedule (S attempt) (retry_delay * 2) n'
  end.

(** A service that plays a script: iteration [n] gets the [n]-th outcome,
    and [Failed ""] once the script is over. *)
Definition scripted (script : list outcome) (n : nat) : outcome :=
  default (Failed "") (script !! n).

End Client.

(** ** The conversation store *)

Module Store.

(** A value of the [conversations] dictionary.  The chat object is kept as
    the history it was started with; [created_at] is a [datetime], counted
    in microseconds. *)
Record session := mkSession {
  chat : list (string * string);
  created_at : Z
}.

Definition bot_template : list (string * string) :=
  [ ("user", "Hi!");
    ("model", "Hello! I am 911 Intel, an AI assistant designed by kelpyshades!");
    ("user", "Please give helpful and concise answers.");
    ("model", "I'll do my best to provide you with accurate and concise information. How can I assist you today?") ].

Definition conversation_key (user_id : string) : string := "user:" +:+ user_id.

(** [get_conversation], with [now] the reading of [datetime.now()]; the
    second component is the dictionary afterwards. *)
Definition get_conversation (now : Z) (user_id : string)
    (conversations : gmap string session)
  : list (string * string) * gmap string session :=
  match conversations !! conversation_key user_id with
  | Some s => (chat s, conversations)
  | None =>
      (bot_template,
       <[conversation_key user_id := mkSession bot_template now]> conversations)
  end.

(** [str.lower] on the bytes of a string.  It changes the ASCII capitals
    only; Python's Unicode-aware [lower] maps no other character to one of
    the letters of ["user"] and ["all"], so the two agree on the
    comparisons [forget] makes. *)
Definition lower_ascii (c : ascii) : ascii :=
  let n := nat_of_ascii c in
  if ((65 <=? n) && (n <=? 90))%nat then ascii_of_nat (n + 32) else c.

Fixpoint lower (s : string) : string :=
  match s with
  | EmptyString => EmptyString
  | String c rest => String (lower_ascii c) (lower rest)
  end.

(** What [forget] sends back. *)
Inductive reply :=
| PermissionDenied
| MemoryReset (cleared : nat) (details : string)
| NothingToClear.

(** The loop [for key in keys_to_remove: if key in conversations: del ...]. *)
Definition remove_keys (keys_to_remove : list string)
    (conversations : gmap string session) : gmap string session :=
  foldl (λ m key, if bool_decide (is_Some (m !! key)) then delete key m else m)
        conversations keys_to_remove.

(** [forget]: [is_administrator] is
    [ctx.author.guild_permissions.administrator]. *)
Definition forget (user_id : string) (is_administrator : bool)
    (target : string) (conversations : gmap string session)
  : gmap string session * reply :=
  let finish (keys_to_remove : list string) (target_description : string) :=
    (remove_keys keys_to_remove conversations,
     match keys_to_remove with
     | [] => NothingToClear
     | _ => MemoryReset (length keys_to_remove) target_description
     end) in
  if bool_decide (lower target = "user") then
    finish [conversation_key user_id] "your conversation history"
  else if bool_decide (lower target = "all") && is_administrator then
    finish (map_to_list conversations).*1 "all conversation histories"
  else if bool_decide (lower target = "all") then
    (conversations, PermissionDenied)
  else finish [] "".

(** [timedelta(days=7)] in microseconds. *)
Definition day : Z := 86400 * 1000000.
Definition week : Z := 7 * day.

(** [del conversations[key]] raises [KeyError] on a missing key. *)
Definition del (key : string) (conversations : gmap string session)
  : option (gmap string session) :=
  if bool_decide (is_Some (conversations !! key))
  then Some (delete key conversations) else None.

(** The body of the loop of [check_conversation_age] over the snapshot
    [list(conversations.items())]; [None] is an exception that escapes. *)
Fixpoint sweep (current_time : Z) (items : list (string * session))
    (conversations : gmap string session) (reset_count : nat)
  : option (gmap string session * nat) :=
  match items with
  | [] => Some (conversations, reset_count)
  | (key, value) :: rest =>
      if bool_decide (current_time - created_at value > week) then
        conversations' ← del key conversations;
        sweep current_time rest conversations' (S reset_count)
      else sweep current_time rest conversations reset_count
  end.

(** [check_conversation_age]: the dictionary afterwards, [reset_count], and
    the count written by [logger.info], which is called only when the count
    is positive. *)
Definition check_conversation_age (current_time : Z)
    (conversations : gmap string session)
  : option (gmap string session * nat * option nat) :=
  '(conversations', reset_count) ←
    sweep current_time (map_to_list conversations) conversations 0%nat;
  Some (conversations', reset_count,
        if bool_decide (0 < reset_count)%nat then Some reset_count else None).

End Store.

(** ** The rate-limit gate of the commands *)

Module Gate.
Import Limiter.

(** The key an invocation is about, and the invocations of a history that
    are about one key. *)
Definition key_of (i : invocation) : string :=
  match i with
  | AddCall _ k => k
  | GetRetryAfter _ k => k
  end.

Definition for_key (key : string) (ivs : list invocation) : list invocation :=
  filter (λ i, key_of i = key) ivs.

(** Two states of a history that agree on the configuration and on what
    they hold for one key. *)
Definition agree (key : string) (st1 st2 : RateLimiter * list (string * Z))
  : Prop :=
  max_calls st1.1 = max_calls st2.1 ∧ time_frame st1.1 = time_frame st2.1 ∧
  records key st1.1 = records key st2.1 ∧
  admitted key st1.2 = admitted key st2.2.

(** How the gate of [ask] and [on_message] ends. *)
Inductive verdict :=
| UserLimited (retry_after : Z)
| GlobalLimited (retry_after : Z)
| Proceed.

(** The head of [ask] and of the mention branch of [on_message]: both
    limiters are asked, the user's first, and then the user's refusal is
    reported before the global one.  [t1], [t2] and [t3] are the clock
    readings of the three limiter calls that are made. *)
Definition ask_gate (t1 t2 t3 : Z) (user_id : string)
    (user_limiter global_limiter : RateLimiter)
  : verdict * RateLimiter * RateLimiter :=
  let '(is_user_limited, user_limiter) := add_call t1 user_id user_limiter in
  let '(is_global_limited, global_limiter) :=
    add_call t2 "global" global_limiter in
  if is_user_limited then
    let '(retry_after, user_limiter) :=
      get_retry_after t3 user_id user_limiter in
    (UserLimited retry_after, user_limiter, global_limiter)
  else if is_global_limited then
    let '(retry_after, global_limiter) :=
      get_retry_after t3 "global" global_limiter in
    (GlobalLimited retry_after, user_limiter, global_limiter)
  else (Proceed, user_limiter, global_limiter).

(** The head of [process_image], [process_video], [process_audio] and
    [search]: one refusal for both limiters, with the larger of the two
    waits.  [Some retry_after] is the refusal, [None] lets the command go
    on.  [t1] to [t4] are the clock readings of the four limiter calls. *)
Definition media_gate (t1 t2 t3 t4 : Z) (user_id : string)
    (user_limiter global_limiter : RateLimiter)
  : option Z * RateLimiter * RateLimiter :=
  let '(is_user_limited, user_limiter) := add_call t1 user_id user_limiter in
  let '(is_global_limited, global_limiter) :=
    add_call t2 "global" global_limiter in
  if is_user_limited || is_global_limited then
    let '(user_wait, user_limiter) :=
      get_retry_after t3 user_id user_limiter in
    let '(global_wait, global_limiter) :=
      get_retry_after t4 "global" global_limiter in
    (Some (Z.max user_wait global_wait), user_limiter, global_limiter)
  else (None, user_limiter, global_limiter).

End Gate.

(** ** Splitting a long response into embeds *)

Module Reply.

(** [range(0, stop, step)] for a positive [step]. *)
Definition py_range (stop step : nat) : list nat :=
  (λ k, k * step)%nat <$> seq 0 ((stop + step - 1) / step)%nat.

(** [text[i:j]] for [0 <= i <= j].  A text is the list of its characters,
    so that [length] is Python's [len]. *)
Definition slice {A} (i j : nat) (text : list A) : list A :=
  take (j - i) (drop i text).

(** [[text[i:i+size] for i in range(0, len(text), size)]]. *)
Definition chunks_of {A} (size : nat) (text : list A) : list (list A) :=
  (λ i, slice i (i + size) text) <$> py_range (length text) size.

(** The embeds that carry a response: the single one, the first of several
    (it replaces the processing message) and the continuations, with the
    numbers their titles show. *)
Inductive embed (A : Type) :=
| Response (description : list A)
| ResponseFirst (total : nat) (description : list A)
| ResponseContinued (i total : nat) (description : list A).
Arguments Response {A}.
Arguments ResponseFirst {A}.
Arguments ResponseContinued {A}.

Definition description {A} (e : embed A) : list A :=
  match e with
  | Response d => d
  | ResponseFirst _ d => d
  | ResponseContinued _ _ d => d
  end.

(** The formatting branch of [ask] and [on_message] for a response of more
    than [limit] characters or not; [None] is the [IndexError] of
    [chunks[0]] on an empty list. *)
Definition response_embeds_with {A} (limit : nat) (response_text : list A)
  : option (list (embed A)) :=
  if bool_decide (limit < length response_text)%nat then
    let chunks := chunks_of limit response_text in
    first ← head chunks;
    Some (ResponseFirst (length chunks) first
          :: imap (λ i chunk, ResponseContinued (i + 2) (length chunks) chunk)
                  (tail chunks))
  else Some [Response response_text].

(** Both constants of the source are 4000. *)
Definition response_embeds {A} (response_text : list A)
  : option (list (embed A)) :=
  response_embeds_with 4000 response_text.

End Reply.

(** ** The [expiry] command *)

Module Expiry.
Import Store.

(** [timedelta.days] and [timedelta.seconds] of a difference counted in
    microseconds: a [timedelta] is normalised so that its seconds lie in
    [[0, 86400)] and its days carry the sign. *)
Definition timedelta_days (delta : Z) : Z := delta `div` day.
Definition timedelta_seconds (delta : Z) : Z := (delta `mod` day) `div` 1000000.

Inductive expiry_reply :=
| NoActiveConversation
| ConversationExpiry (days_left hours_left created expires : Z).

(** [check_expiry]: [now] is the reading of [datetime.now()].  The seconds
    are a whole number below 86400, so [int(seconds / 3600)] is their
    quotient by 3600. *)
Definition check_expiry (now : Z) (user_id : string)
    (conversations : gmap string session) : expiry_reply :=
  match conversations !! conversation_key user_id with
  | None => NoActiveConversation
  | Some s =>
      let created_at := created_at s in
      let expiry_date := created_at + week in
      let days_left := timedelta_days (expiry_date - now) in
      let hours_left := timedelta_seconds (expiry_date - now) `div` 3600 in
      ConversationExpiry days_left hours_left created_at expiry_date
  end.

End Expiry.

(** ** The web search *)

Module Search.

(** A JSON value of a search result, as far as the bot looks at it: a
    string, or anything else together with what [str] makes of it. *)
Inductive json :=
| JString (s : string)
| JOther (repr : string).

Definition str (v : json) : string :=
  match v with
  | JString s => s
  | JOther repr => repr
  end.

(** What [perform_serpapi_search] raises. *)
Inductive search_error :=
| MissingKey
| BadStatus (status : Z).

(** The dictionary built for one item of [organic_results]. *)
Definition result_of (item : gmap string json) : gmap string json :=
  let result : gmap string json :=
    <["snippet" := default (JString "No description available.") (item !! "snippet")]>
    (<["link" := default (JString "") (item !! "link")]>
    (<["title" := default (JString "") (item !! "title")]> ∅)) in
  match item !! "thumbnail" with
  | Some thumbnail => <["thumbnail" := thumbnail]> result
  | None => result
  end.

(** [perform_serpapi_search] from the environment and the HTTP response:
    the key if it is set, the status, and the value of ["organic_results"]
    in the decoded body if that key is there. *)
Definition perform_serpapi_search (serpapi_key : option string) (status : Z)
    (organic_results : option (list (gmap string json)))
  : search_error + list (gmap string json) :=
  match serpapi_key with
  | None | Some EmptyString => inl MissingKey
  | Some _ =>
      if bool_decide (status ≠ 200) then inl (BadStatus status)
      else match organic_results with
           | None => inr []
           | Some items => inr (result_of <$> take 8 items)
           end
  end.

Definition newline : string := String "010" EmptyString.

(** [format_search_results_for_gemini] from the [i]-th result on; [None] is
    the [KeyError] of a result without one of the three keys. *)
Fixpoint format_from (i : nat) (results : list (gmap string json))
    (formatted : string) : option string :=
  match results with
  | [] => Some formatted
  | result :: rest =>
      title ← result !! "title";
      link ← result !! "link";
      snippet ← result !! "snippet";
      format_from (S i) rest
        (formatted
         +:+ "[" +:+ pretty (i + 1)%nat +:+ "] " +:+ str title +:+ newline
         +:+ "URL: " +:+ str link +:+ newline
         +:+ "Snippet: " +:+ str snippet +:+ newline +:+ newline)
  end.

Definition format_search_results_for_gemini
    (results : list (gmap string json)) : option string :=
  format_from 0 results "".

End Search.

(** ** The terminal tester *)

Module Tester.
Import Store.

(** [bot_tester.py] carries its own copies of [RateLimiter] and
    [get_gemini_response], which are the ones above word for word, and a
    [forget] of its own over keys of the form [channel_id:user_id]. *)

(** [key.endswith(suffix)]. *)
Fixpoint ends_with (suffix key : string) : bool :=
  if String.eqb key suffix then true
  else match key with
       | EmptyString => false
       | String _ rest => ends_with suffix rest
       end.

(** What [simulate_forget_command] prints. *)
Inductive printed :=
| Cleared (count : nat)
| NoneFound.

(** The loop [for key in keys_to_remove: if key in conversations: del ...],
    for a store of any values. *)
Definition drop_keys {V} (keys_to_remove : list string)
    (conversations : gmap string V) : gmap string V :=
  foldl (λ m key, if bool_decide (is_Some (m !! key)) then delete key m else m)
        conversations keys_to_remove.

(** [simulate_forget_command]. *)
Definition simulate_forget_command {V} (user_id channel_id target : string)
    (conversations : gmap string V) : gmap string V * printed :=
  let conversation_key := channel_id +:+ ":" +:+ user_id in
  let keys := (map_to_list conversations).*1 in
  let keys_to_remove :=
    if bool_decide (lower target = "user") then [conversation_key]
    else if bool_decide (lower target = "channel") then
      filter (λ key, String.prefix (channel_id +:+ ":") key = true) keys
    else if bool_decide (lower target = "all") then
      filter (λ key, ends_with (":" +:+ user_id) key = true) keys
    else [] in
  (drop_keys keys_to_remove conversations,
   match keys_to_remove with
   | [] => NoneFound
   | _ => Cleared (length keys_to_remove)
   end).

End Tester.

Import Limiter Client Store Gate Reply Expiry Search Tester.

(** ** Properties of the limiter *)

Section limiter_facts.
Implicit Types (self : RateLimiter) (key k : string) (l : list Z).

Lemma getitem_fst key (d : gmap string (list Z)) :
  (getitem key d).1 = default [] (d !! key).
Proof. unfold getitem. by destruct (d !! key). Qed.

Lemma getitem_lookup key k (d : gmap string (list Z)) :
  default [] ((getitem key d).2 !! k) = default [] (d !! k).
Proof.
  unfold getitem. destruct (d !! key) eqn:E; [done|]. simpl.
  destruct (decide (key = k)) as [->|Hne].
  - by rewrite lookup_insert_eq, E.
  - by rewrite lookup_insert_ne.
Qed.

Lemma getitem_lookup_ne key k (d : gmap string (list Z)) :
  key ≠ k → (getitem key d).2 !! k = d !! k.
Proof.
  intros Hne. unfold getitem. destruct (d !! key); [done|].
  simpl. by rewrite lookup_insert_ne.
Qed.

Lemma recent_app W c l1 l2 :
  recent W c (l1 ++ l2) = recent W c l1 ++ recent W c l2.
Proof. apply filter_app. Qed.

(** Pruning at a later reading subsumes pruning at an earlier one. *)
Lemma recent_recent W c c' l :
  c ≤ c' → recent W c' (recent W c l) = recent W c' l.
Proof.
  intros Hc. unfold recent. induction l as [|a l IH]; [done|].
  rewrite !filter_cons. repeat case_decide; rewrite ?filter_cons;
    repeat case_decide; try lia; by rewrite IH.
Qed.

Lemma recent_all W c l :
  Forall (λ a, c - a < W) l → recent W c l = l.
Proof.
  unfold recent. induction 1 as [|a l Ha _ IH]; [done|].
  rewrite filter_cons. case_decide; [by rewrite IH | lia].
Qed.

Lemma recent_Forall W c l : Forall (λ a, c - a < W) (recent W c l).
Proof.
  apply Forall_forall. intros a Ha.
  unfold recent in Ha. by apply list_elem_of_filter in Ha as [? _].
Qed.

(** *** What the two methods do to the records of a key *)

Lemma add_call_limited t key self :
  (add_call t key self).1 =
  bool_decide (Z.of_nat (length (recent (time_frame self) t (records key self)))
               >= max_calls self).
Proof.
  unfold add_call, records.
  pose proof (getitem_fst key (calls self)) as Hf.
  destruct (getitem key (calls self)) as [l c1]. simpl in Hf. subst l.
  by case_bool_decide.
Qed.

Lemma add_call_records t key self :
  records key (add_call t key self).2 =
  let kept := recent (time_frame self) t (records key self) in
  if (add_call t key self).1 then kept else kept ++ [t].
Proof.
  unfold add_call, records.
  pose proof (getitem_fst key (calls self)) as Hf.
  destruct (getitem key (calls self)) as [l c1]. simpl in Hf. subst l.
  case_bool_decide; simpl; by rewrite !lookup_insert_eq.
Qed.

Lemma add_call_records_ne t key k self :
  key ≠ k → records k (add_call t key self).2 = records k self.
Proof.
  intros Hne. unfold add_call, records.
  pose proof (getitem_lookup_ne key k (calls self) Hne) as Hl.
  destruct (getitem key (calls self)) as [l c1]. simpl in Hl.
  case_bool_decide; simpl; by rewrite !lookup_insert_ne, Hl by done.
Qed.

Lemma add_call_config t key self :
  max_calls (add_call t key self).2 = max_calls self ∧
  time_frame (add_call t key self).2 = time_frame self.
Proof.
  unfold add_call. destruct (getitem key (calls self)) as [l c1].
  by case_bool_decide.
Qed.

Lemma get_retry_after_value now key self :
  (get_retry_after now key self).1 =
  match records key self with
  | [] => 0
  | x :: r => Z.max 0 (time_frame self - (now - py_min x r))
  end.
Proof.
  unfold get_retry_after, records.
  pose proof (getitem_fst key (calls self)) as Hf.
  destruct (getitem key (calls self)) as [l c1]. simpl in Hf. subst l.
  by destruct (default [] (calls self !! key)).
Qed.

Lemma get_retry_after_calls now key self :
  calls (get_retry_after now key self).2 = (getitem key (calls self)).2.
Proof.
  unfold get_retry_after.
  destruct (getitem key (calls self)) as [l c1]. by destruct l.
Qed.

Lemma get_retry_after_records now key k self :
  records k (get_retry_after now key self).2 = records k self.
Proof.
  unfold records. rewrite get_retry_after_calls. apply getitem_lookup.
Qed.

Lemma get_retry_after_config now key self :
  max_calls (get_retry_after now key self).2 = max_calls self ∧
  time_frame (get_retry_after now key self).2 = time_frame self.
Proof.
  unfold get_retry_after. destruct (getitem key (calls self)) as [l c1].
  by destruct l.
Qed.

(** [py_min] is the least element. *)
Lemma py_min_le x l : py_min x l ≤ x ∧ Forall (λ a, py_min x l ≤ a) l.
Proof.
  unfold py_min. revert x. induction l as [|a l IH]; intros x; simpl.
  - split; [lia | constructor].
  - destruct (IH (Z.min x a)) as [H1 H2]. split; [lia|].
    constructor; [lia | done].
Qed.

Lemma py_min_elem x l : py_min x l ∈ x :: l.
Proof.
  unfold py_min. revert x. induction l as [|a l IH]; intros x; simpl.
  - left.
  - specialize (IH (Z.min x a)).
    apply elem_of_cons in IH as [->|IH].
    + destruct (Z.min_spec x a) as [[_ ->]|[_ ->]]; [left | right; left].
    + right. by right.
Qed.

End limiter_facts.

(** ** The window bound *)

Section window_invariant.
Variables (M W : Z).
Hypothesis M_nonneg : 0 ≤ M.
Implicit Types (key k : string) (log : list (string * Z)).

Lemma admitted_snoc key k t log :
  admitted key (log ++ [(k, t)]) =
  if decide (k = key) then admitted key log ++ [t] else admitted key log.
Proof.
  unfold admitted. rewrite filter_app, filter_cons, filter_nil. simpl.
  case_decide.
  - by rewrite fmap_app.
  - by rewrite app_nil_r.
Qed.

Lemma filter_length_mono {A} (P Q : A → Prop)
    `{!∀ x, Decision (P x)} `{!∀ x, Decision (Q x)} (l : list A) :
  Forall (λ a, P a → Q a) l →
  (length (filter P l) ≤ length (filter Q l))%nat.
Proof.
  induction 1 as [|a l Ha _ IH]; [done|].
  rewrite !filter_cons. repeat case_decide; simpl; try lia. tauto.
Qed.

(** Every admitted call that lies in the window ending at [t] is still
    recent at any reading [c] between the admitted calls and [t]. *)
Lemma in_window_recent (A : list Z) c t :
  c ≤ t →
  (length (filter (in_window W t) A) ≤ length (recent W c A))%nat.
Proof.
  intros Hc. apply filter_length_mono, Forall_forall.
  intros a _ [Ha _]. lia.
Qed.

Lemma window_inv_init key T : window_inv M W key T (init M W, []).
Proof.
  unfold window_inv, admitted_in_window, admitted, records. simpl.
  split; [done|]. split; [done|]. split; [constructor|].
  split; [intros c _; by rewrite lookup_empty | intros; simpl; lia].
Qed.

Lemma window_inv_step key T st i :
  window_inv M W key T st → T ≤ clock_of i →
  window_inv M W key (clock_of i) (step st i).
Proof.
  intros (HMx & HW & Hle & Hrec & Hbound) HT.
  assert (Hle' : Forall (λ a, a ≤ clock_of i) (admitted key st.2)).
  { eapply Forall_impl; [exact Hle|]. simpl. intros; lia. }
  destruct i as [t k | t k]; simpl in *.
  - (* add_call *)
    pose proof (add_call_config t k st.1) as [Hc1 Hc2].
    pose proof (add_call_limited t k st.1) as Hlim.
    destruct (decide (k = key)) as [->|Hne].
    + pose proof (add_call_records t key st.1) as Hr. simpl in Hr.
      destruct (add_call t key st.1) as [limited self'] eqn:E.
      simpl in *. rewrite HW, HMx in *.
      rewrite (Hrec t HT) in Hr, Hlim.
      unfold window_inv; simpl.
      destruct limited.
      * split_and!; try congruence; try done.
        intros c Hc. by rewrite Hr, recent_recent.
      * symmetry in Hlim. apply bool_decide_eq_false in Hlim.
        split_and!; try congruence.
        -- rewrite admitted_snoc. rewrite decide_True by done.
           apply Forall_app. split; [done|]. repeat constructor. lia.
        -- intros c Hc. rewrite Hr, admitted_snoc, decide_True by done.
           rewrite !recent_app. f_equal. by apply recent_recent.
        -- intros t0. unfold admitted_in_window.
           rewrite admitted_snoc, decide_True by done.
           rewrite filter_app, length_app, filter_cons, filter_nil.
           case_decide as Hin; simpl.
           ++ destruct Hin as [_ Hin].
              pose proof (in_window_recent (admitted key st.2) t t0 Hin).
              lia.
           ++ specialize (Hbound t0). unfold admitted_in_window in Hbound.
              lia.
    + pose proof (add_call_records_ne t k key st.1 Hne) as Hr.
      destruct (add_call t k st.1) as [limited self'] eqn:E.
      simpl in *.
      assert (Hadm : admitted key (if limited then st.2 else st.2 ++ [(k, t)])
                     = admitted key st.2).
      { destruct limited; [done|]. by rewrite admitted_snoc, decide_False. }
      unfold window_inv, admitted_in_window; simpl. rewrite Hadm, Hr.
      split_and!; try congruence; try done.
      intros c Hc. apply Hrec. lia.
  - (* get_retry_after *)
    pose proof (get_retry_after_config t k st.1) as [Hc1 Hc2].
    unfold window_inv; simpl.
    rewrite get_retry_after_records.
    split_and!; try congruence; try done.
    intros c Hc. apply Hrec. lia.
Qed.

Lemma window_inv_run key ivs : ∀ T st,
  window_inv M W key T st → clock_from T ivs →
  ∃ T', window_inv M W key T' (run ivs st).
Proof.
  induction ivs as [|i ivs IH]; intros T st Hinv Hclock; simpl.
  - by exists T.
  - destruct Hclock as [HT Hrest].
    apply (IH (clock_of i)); [|done]. by apply window_inv_step with T.
Qed.

End window_invariant.

(** C1 (window bound).  Start from an empty limiter whose [max_calls] is not
    negative and let any sequence of [add_call] and [get_retry_after]
    invocations run against a clock that never runs backwards.  Then for
    every key and every time [t], the calls admitted for that key with a
    timestamp in [(t - time_frame, t]] number at most [max_calls]. *)
Theorem window_bound (M W T : Z) (ivs : list invocation) (key : string) (t : Z) :
  0 ≤ M → clock_from T ivs →
  Z.of_nat (admitted_in_window W t key (run ivs (init M W, [])).2) ≤ M.
Proof.
  intros HM Hclock.
  destruct (window_inv_run M W key ivs T (init M W, [])) as [T' Hinv];
    [by apply window_inv_init | done |].
  apply Hinv.
Qed.

(** The bound is used at a concrete history: three admissions, a rejection,
    a query and a late admission, observed at [t = 2]. *)
Lemma window_bound_witness :
  Z.of_nat (admitted_in_window 10 2 "u"
    (run [AddCall 0 "u"; AddCall 1 "u"; AddCall 2 "u"; AddCall 3 "u";
          GetRetryAfter 3 "u"; AddCall 11 "u"] (init 3 10, [])).2) ≤ 3.
Proof.
  apply (window_bound 3 10 0); [lia | simpl; lia].
Defined.

(** The bound is attained there: all three admitted calls lie in [(-8, 2]]. *)
Example window_bound_tight :
  admitted_in_window 10 2 "u"
    (run [AddCall 0 "u"; AddCall 1 "u"; AddCall 2 "u"; AddCall 3 "u";
          GetRetryAfter 3 "u"; AddCall 11 "u"] (init 3 10, [])).2 = 3%nat.
Proof. vm_compute. reflexivity. Qed.

(** ** [get_retry_after] *)

(** C2, as the code has it.  [get_retry_after] does not prune: it returns 0
    when nothing is stored for the key, and otherwise
    [max(0, time_frame - (now - oldest))] where [oldest] is the least of all
    the records stored for the key, expired or not; the stored records of
    every key are what they were. *)
Theorem get_retry_after_unpruned (now : Z) (key : string) (self : RateLimiter) :
  (get_retry_after now key self).1 =
    match records key self with
    | [] => 0
    | x :: r => Z.max 0 (time_frame self - (now - py_min x r))
    end ∧
  (∀ x r, records key self = x :: r →
     py_min x r ∈ records key self ∧
     Forall (λ a, py_min x r ≤ a) (records key self)) ∧
  (∀ k, records k (get_retry_after now key self).2 = records k self).
Proof.
  split_and!.
  - apply get_retry_after_value.
  - intros x r ->. split; [apply py_min_elem|].
    destruct (py_min_le x r). by constructor.
  - intros k. apply get_retry_after_records.
Qed.

(** C2, counterexample.  Two calls admitted at 0 and 5 under a window of 10;
    queried at 12, the code answers 0 out of the expired record at 0, where
    pruning first would answer 3 out of the record at 5. *)
Lemma get_retry_after_prunes_not :
  let self := (run [AddCall 0 "u"; AddCall 5 "u"] (init 5 10, [])).1 in
  records "u" self = [0; 5] ∧
  (get_retry_after 12 "u" self).1 = 0 ∧
  retry_after_spec 10 12 (records "u" self) = 3 ∧
  (get_retry_after 12 "u" self).1 ≠ retry_after_spec 10 12 (records "u" self) ∧
  records "u" (get_retry_after 12 "u" self).2 = [0; 5].
Proof. vm_compute. split_and!; congruence. Qed.

(** Where no stored record has expired, the code and the specification's
    formula agree. *)
Lemma get_retry_after_fresh (now : Z) (key : string) (self : RateLimiter) :
  Forall (λ a, now - a < time_frame self) (records key self) →
  (get_retry_after now key self).1 =
  retry_after_spec (time_frame self) now (records key self).
Proof.
  intros Hall. rewrite get_retry_after_value. unfold retry_after_spec.
  by rewrite recent_all.
Qed.

(** That is the case right after [add_call], at the same reading. *)
Lemma get_retry_after_after_add_call (now : Z) (key : string) (self : RateLimiter) :
  0 < time_frame self →
  let self' := (add_call now key self).2 in
  (get_retry_after now key self').1 =
  retry_after_spec (time_frame self') now (records key self').
Proof.
  intros HW self'. apply get_retry_after_fresh. subst self'.
  destruct (add_call_config now key self) as [_ ->].
  rewrite add_call_records. simpl.
  destruct (add_call now key self).1.
  - apply recent_Forall.
  - apply Forall_app. split; [apply recent_Forall|].
    repeat constructor. lia.
Qed.

(** C7 (end-to-end example).  [max_calls = 3], [time_frame = 10], one key:
    the calls at 0, 1 and 2 are admitted, the call at 3 is rejected and
    [get_retry_after] then answers 7, the call at 11 is admitted.  A record
    whose age equals the time frame is never kept by the prune, so a call
    at 10 instead of 11 is admitted as well. *)
Theorem end_to_end_limiter :
  let l0 := init 3 10 in
  let '(b0, l1) := add_call 0 "u" l0 in
  let '(b1, l2) := add_call 1 "u" l1 in
  let '(b2, l3) := add_call 2 "u" l2 in
  let '(b3, l4) := add_call 3 "u" l3 in
  let '(r, l5) := get_retry_after 3 "u" l4 in
  let '(b4, l6) := add_call 11 "u" l5 in
  let '(b4', l6') := add_call 10 "u" l5 in
  (b0, b1, b2, b3, r, b4) = (false, false, false, true, 7, false) ∧
  records "u" l4 = [0; 1; 2] ∧
  records "u" l6 = [2; 11] ∧
  (b4', records "u" l6') = (false, [1; 2; 10]) ∧
  (∀ W a l, a ∉ recent W (a + W) l).
Proof.
  assert (Hedge : ∀ W a l, a ∉ recent W (a + W) l).
  { intros W a l Ha. apply list_elem_of_filter in Ha as [Ha _]. lia. }
  vm_compute. split_and!; try reflexivity. exact Hedge.
Qed.

(** C8 (monotonic cooldown).  Let [oldest] be the value [get_retry_after]
    takes with [min] for a key that has a stored record: it is one of the
    stored records and no stored record is older.  While nothing is added
    for the key, a later query gives a strictly smaller answer than an
    earlier one whose answer was positive; the answer is positive exactly
    before that oldest record reaches the age [time_frame], and is zero at
    that instant.  The queries leave the records as they are. *)
Theorem cooldown_monotone (self : RateLimiter) (key : string) (x : Z) (r : list Z) :
  records key self = x :: r →
  let oldest := py_min x r in
  (oldest ∈ records key self ∧ Forall (λ a, oldest ≤ a) (records key self)) ∧
  (∀ now1 now2, now1 < now2 →
     let '(v1, self1) := get_retry_after now1 key self in
     let '(v2, self2) := get_retry_after now2 key self1 in
     records key self2 = x :: r ∧ (0 < v1 → v2 < v1)) ∧
  (∀ now, 0 < (get_retry_after now key self).1 ↔ now - oldest < time_frame self) ∧
  (∀ now, (get_retry_after now key self).1 =
          Z.max 0 (oldest + time_frame self - now)) ∧
  (get_retry_after (oldest + time_frame self) key self).1 = 0.
Proof.
  intros Hrec oldest. split_and!.
  - rewrite Hrec. apply py_min_elem.
  - rewrite Hrec. destruct (py_min_le x r). by constructor.
  - intros now1 now2 Hlt.
    pose proof (get_retry_after_value now1 key self) as Hv1.
    pose proof (get_retry_after_records now1 key key self) as Hr1.
    pose proof (get_retry_after_config now1 key self) as [_ Hw1].
    destruct (get_retry_after now1 key self) as [v1 self1]. simpl in *.
    pose proof (get_retry_after_value now2 key self1) as Hv2.
    pose proof (get_retry_after_records now2 key key self1) as Hr2.
    destruct (get_retry_after now2 key self1) as [v2 self2]. simpl in *.
    rewrite Hr1, Hrec in Hv2. rewrite Hrec in Hv1.
    split; [congruence|]. subst v1 v2. rewrite Hw1. lia.
  - intros now. rewrite get_retry_after_value, Hrec. subst oldest. lia.
  - intros now. rewrite get_retry_after_value, Hrec. subst oldest. lia.
  - rewrite get_retry_after_value, Hrec. subst oldest. lia.
Qed.

(** The witness has its oldest record in the middle of the list: the calls
    were admitted at the readings 5, 2 and 7. *)
Lemma cooldown_monotone_witness :
  let self := (run [AddCall 5 "u"; AddCall 2 "u"; AddCall 7 "u"] (init 3 10, [])).1 in
  records "u" self = [5; 2; 7] ∧
  (2 ∈ records "u" self ∧ Forall (λ a, 2 ≤ a) (records "u" self)) ∧
  (let '(v1, self1) := get_retry_after 8 "u" self in
   let '(v2, self2) := get_retry_after 10 "u" self1 in
   records "u" self2 = [5; 2; 7] ∧ (0 < v1 → v2 < v1)) ∧
  (get_retry_after 8 "u" self).1 = Z.max 0 (2 + 10 - 8) ∧
  (get_retry_after (2 + 10) "u" self).1 = 0.
Proof.
  intros self.
  pose proof (cooldown_monotone self "u" 5 [2; 7] eq_refl)
    as (Hleast & Hmono & _ & Hvalue & Hzero).
  split; [reflexivity|].
  split; [exact Hleast|].
  split; [exact (Hmono 8 10 ltac:(lia))|].
  split; [exact (Hvalue 8) | exact Hzero].
Defined.

(** C10 (the query is not read-only).  For a key the table does not hold,
    [get_retry_after] answers 0 and leaves the table with that key bound to
    an empty list: the key set grows by exactly that key, no timestamp is
    recorded, every other key keeps its binding and the configuration is
    unchanged. *)
Theorem get_retry_after_inserts_key (now : Z) (key : string) (self : RateLimiter) :
  calls self !! key = None →
  let '(v, self') := get_retry_after now key self in
  v = 0 ∧
  calls self' = <[key := []]> (calls self) ∧
  calls self' !! key = Some [] ∧
  (key ∉ dom (calls self)) ∧
  dom (calls self') = {[key]} ∪ dom (calls self) ∧
  (∀ k, k ≠ key → calls self' !! k = calls self !! k) ∧
  max_calls self' = max_calls self ∧ time_frame self' = time_frame self.
Proof.
  intros Hnone. unfold get_retry_after, getitem. rewrite Hnone. simpl.
  split_and!; try done.
  - apply lookup_insert_eq.
  - by apply not_elem_of_dom.
  - apply dom_insert_L.
  - intros k Hk. by apply lookup_insert_ne.
Qed.

Lemma get_retry_after_inserts_key_witness :
  let '(v, self') := get_retry_after 100 "u" (init 5 60) in
  v = 0 ∧
  calls self' = <["u" := []]> (calls (init 5 60)) ∧
  calls self' !! "u" = Some [] ∧
  ("u" ∉ dom (calls (init 5 60))) ∧
  dom (calls self') = {["u"]} ∪ dom (calls (init 5 60)) ∧
  (∀ k, k ≠ "u" → calls self' !! k = calls (init 5 60) !! k) ∧
  max_calls self' = max_calls (init 5 60) ∧
  time_frame self' = time_frame (init 5 60).
Proof.
  apply (get_retry_after_inserts_key 100 "u" (init 5 60)). reflexivity.
Defined.

(** ** The retrying client *)

Section client_facts.
Implicit Types (service : nat → outcome).

Lemma sends_schedule a d n : sends (schedule a d n) = S n.
Proof.
  revert a d. induction n as [|n IH]; intros a d; [done|].
  unfold sends in *. simpl. by rewrite IH.
Qed.

Lemma sleeps_schedule n : (n ≤ 2)%nat → sleeps (schedule 0 2 n) = take n [2; 4].
Proof. intros Hn. destruct n as [|[|[|n]]]; [done..|lia]. Qed.

(** The loop always returns a text, after one, two or three attempts. *)
Lemma get_gemini_response_total service :
  ∃ text n, (n ≤ 2)%nat ∧
    get_gemini_response service = (Some text, schedule 0 2 n).
Proof.
  unfold get_gemini_response. simpl.
  destruct (service 0%nat) as [t0| |e0];
    [exists t0, 0%nat | exists refusal, 0%nat |]; try (split; [lia|done]).
  destruct (service 1%nat) as [t1| |e1];
    [exists t1, 1%nat | exists refusal, 1%nat |]; try (split; [lia|done]).
  destruct (service 2%nat) as [t2| |e2];
    [exists t2, 2%nat | exists refusal, 2%nat | exists (difficulties e2), 2%nat];
    (split; [lia|done]).
Qed.

(** The refusal is not one of the error texts. *)
Lemma refusal_not_error e : refusal ≠ difficulties e.
Proof. unfold refusal, difficulties. simpl. discriminate. Qed.

End client_facts.

(** C3, as the code has it.  [get_gemini_response] always returns a text
    and makes between one and three attempts; it sleeps once between two
    successive attempts, 2 before the second attempt and 4 before the
    third, and not after the last one.  After two failures and a success it
    returns the text of the success, having made exactly three attempts
    and slept 2 and then 4. *)
Theorem backoff_schedule :
  (∀ service, ∃ text n,
     get_gemini_response service = (Some text, schedule 0 2 n) ∧
     (1 ≤ sends (schedule 0 2 n) ≤ 3)%nat ∧
     sleeps (schedule 0 2 n) = take (sends (schedule 0 2 n) - 1) [2; 4]) ∧
  (∀ e1 e2 text rest,
     let '(r, tr) :=
       get_gemini_response (scripted (Failed e1 :: Failed e2 :: Text text :: rest)) in
     r = Some text ∧
     tr = [Send 0; Sleep 2; Send 1; Sleep 4; Send 2] ∧
     sends tr = 3%nat ∧ sleeps tr = [2; 4]).
Proof.
  split.
  - intros service.
    destruct (get_gemini_response_total service) as (text & n & Hn & Heq).
    exists text, n. rewrite sends_schedule, sleeps_schedule by done.
    split_and!; [done | lia | lia |]. f_equal. lia.
  - intros e1 e2 text rest. by vm_compute.
Qed.

(** C3, counterexample.  Three failures in a row make the longest run: its
    sleeps are 2 and 4, and the third failure is answered at once.  No run
    sleeps 8, whatever the service does. *)
Lemma backoff_has_no_third_delay :
  get_gemini_response (scripted [Failed "a"; Failed "b"; Failed "c"]) =
    (Some (difficulties "c"), [Send 0; Sleep 2; Send 1; Sleep 4; Send 2]) ∧
  sleeps (get_gemini_response (scripted [Failed "a"; Failed "b"; Failed "c"])).2
    = [2; 4] ∧
  (∀ service, sleeps (get_gemini_response service).2 ≠ [2; 4; 8]) ∧
  (∀ service, 8 ∉ sleeps (get_gemini_response service).2).
Proof.
  split_and!; [done | done | |].
  - intros service.
    destruct (get_gemini_response_total service) as (text & n & Hn & ->).
    simpl. rewrite sleeps_schedule by done.
    destruct n as [|[|[|n]]]; simpl; [discriminate..|lia].
  - intros service.
    destruct (get_gemini_response_total service) as (text & n & Hn & ->).
    simpl. rewrite sleeps_schedule by done.
    destruct n as [|[|[|n]]]; simpl; [| | |lia];
      rewrite ?elem_of_cons, ?elem_of_nil; intros H; repeat destruct H as [H|H];
      try discriminate; done.
Qed.

(** C4 (blocked short-circuit).  When the attempts before the [n]-th fail
    and the [n]-th is blocked, [get_gemini_response] returns the fixed
    refusal text, which is none of the error texts, right after that
    attempt: it has made [n + 1] attempts and slept only for the [n]
    failures before.  For [n = 0] that is one attempt and no sleep. *)
Theorem blocked_short_circuit (service : nat → outcome) (n : nat) :
  (n < 3)%nat →
  (∀ i, (i < n)%nat → ∃ e, service i = Failed e) →
  service n = Blocked →
  let '(r, tr) := get_gemini_response service in
  r = Some refusal ∧ (∀ e, refusal ≠ difficulties e) ∧
  tr = schedule 0 2 n ∧ last tr = Some (Send n) ∧
  sends tr = S n ∧ sleeps tr = take n [2; 4] ∧
  (n = 0%nat → tr = [Send 0] ∧ sleeps tr = []).
Proof.
  intros Hn Hfail Hblocked. unfold get_gemini_response. simpl.
  destruct n as [|[|[|n]]]; [| | |lia].
  - rewrite Hblocked. split_and!; auto using refusal_not_error.
  - destruct (Hfail 0%nat) as [e0 ->]; [lia|]. rewrite Hblocked.
    split_and!; auto using refusal_not_error. discriminate.
  - destruct (Hfail 0%nat) as [e0 ->]; [lia|].
    destruct (Hfail 1%nat) as [e1 ->]; [lia|]. rewrite Hblocked.
    split_and!; auto using refusal_not_error. discriminate.
Qed.

Lemma blocked_short_circuit_witness :
  let '(r, tr) := get_gemini_response (scripted [Blocked; Text "late"]) in
  r = Some refusal ∧ (∀ e, refusal ≠ difficulties e) ∧
  tr = schedule 0 2 0 ∧ last tr = Some (Send 0) ∧
  sends tr = 1%nat ∧ sleeps tr = take 0 [2; 4] ∧
  (0%nat = 0%nat → tr = [Send 0] ∧ sleeps tr = []).
Proof.
  apply (blocked_short_circuit (scripted [Blocked; Text "late"]) 0).
  - lia.
  - intros i Hi. lia.
  - reflexivity.
Defined.

(** The same on the second attempt: one failure, one sleep of 2, no retry
    after the block. *)
Example blocked_on_second_attempt :
  get_gemini_response (scripted [Failed "x"; Blocked; Text "late"]) =
  (Some refusal, [Send 0; Sleep 2; Send 1]).
Proof. reflexivity. Qed.

(** ** The conversation store *)

Section store_facts.
Implicit Types (conversations m : gmap string session) (key k : string).

Lemma remove_keys_absent key conversations :
  conversations !! key = None → remove_keys [key] conversations = conversations.
Proof.
  intros Hnone. unfold remove_keys. simpl.
  rewrite bool_decide_eq_false_2; [done|]. rewrite Hnone. by intros [? ?].
Qed.

Lemma remove_keys_present key s conversations :
  conversations !! key = Some s →
  remove_keys [key] conversations = delete key conversations.
Proof.
  intros Hsome. unfold remove_keys. simpl.
  rewrite bool_decide_eq_true_2; [done|]. by rewrite Hsome.
Qed.

(** The loop of the reaper over a snapshot whose keys are distinct and
    still bound: it raises nothing, removes the bindings of the expired
    items and counts them. *)
Lemma sweep_spec now (items : list (string * session)) : ∀ m (n : nat),
  NoDup items.*1 →
  (∀ k v, (k, v) ∈ items → m !! k = Some v) →
  let gone := filter (λ kv, now - created_at kv.2 > week) items in
  ∃ m', sweep now items m n = Some (m', (n + length gone)%nat) ∧
        size m = (size m' + length gone)%nat ∧
        ∀ k, m' !! k = if decide (k ∈ gone.*1) then None else m !! k.
Proof.
  induction items as [|[k0 v0] items IH]; intros m n Hnd Hin; cbn zeta.
  - exists m. rewrite filter_nil. simpl.
    split_and!; [f_equal; f_equal; lia | lia | done].
  - rewrite fmap_cons in Hnd. apply NoDup_cons in Hnd as [Hk0 Hnd].
    simpl in Hk0.
    assert (Hm0 : m !! k0 = Some v0) by (apply Hin; left).
    assert (Hrest : ∀ k v, (k, v) ∈ items → k ≠ k0).
    { intros k v Hkv ->. apply Hk0, list_elem_of_fmap. by exists (k0, v). }
    rewrite filter_cons. cbn [sweep fst snd]. case_bool_decide as Hexp.
    + rewrite decide_True by done.
      unfold del. rewrite bool_decide_eq_true_2 by (by rewrite Hm0).
      cbn [mbind option_bind].
      destruct (IH (delete k0 m) (S n) Hnd) as (m' & Hsw & Hsz & Hlk).
      { intros k v Hkv. rewrite lookup_delete_ne by (symmetry; eauto).
        apply Hin. by right. }
      cbn zeta in Hsw, Hsz, Hlk.
      exists m'. rewrite length_cons, fmap_cons. cbn [fst]. split_and!.
      * rewrite Hsw. f_equal. f_equal. lia.
      * rewrite map_size_delete_Some in Hsz by (by rewrite Hm0).
        assert (size m ≠ 0%nat).
        { intros Hz. apply map_size_empty_inv in Hz. subst m.
          by rewrite lookup_empty in Hm0. }
        lia.
      * intros k. rewrite Hlk. destruct (decide (k = k0)) as [->|Hne].
        -- rewrite lookup_delete_eq.
           rewrite (decide_True (P := k0 ∈ k0 :: _)) by left.
           by case_decide.
        -- rewrite lookup_delete_ne by done.
           case_decide as Hin1; case_decide as Hin2; try done.
           ++ exfalso. apply Hin2. by right.
           ++ exfalso. apply elem_of_cons in Hin2 as [?|?]; done.
    + rewrite decide_False by done.
      destruct (IH m n Hnd) as (m' & Hsw & Hsz & Hlk).
      { intros k v Hkv. apply Hin. by right. }
      by exists m'.
Qed.

End store_facts.

(** C5 (authorization gate).  Whatever the store holds, [forget] with
    target [all] from a caller who is not an administrator returns the
    store as it was, together with the permission-denied reply. *)
Theorem forget_all_unauthorized (user_id target : string)
    (conversations : gmap string session) :
  lower target = "all" →
  forget user_id false target conversations = (conversations, PermissionDenied).
Proof.
  intros Hall. unfold forget. rewrite Hall. reflexivity.
Qed.

Lemma forget_all_unauthorized_witness :
  let store := (get_conversation 5 "2" (get_conversation 3 "1" ∅).2).2 in
  forget "1" false "ALL" store = (store, PermissionDenied).
Proof.
  intros store. apply (forget_all_unauthorized "1" "ALL" store). reflexivity.
Defined.

(** The administrator, by contrast, empties the store and is told how many
    keys were listed. *)
Example forget_all_administrator :
  let store := (get_conversation 5 "2" (get_conversation 3 "1" ∅).2).2 in
  forget "1" true "all" store = (∅, MemoryReset 2 "all conversation histories").
Proof. vm_compute. reflexivity. Qed.

(** C9 (cleared count of a user without a session).  For a user whose key
    is not in the store, [forget] with target [user] returns the store as
    it was and reports one conversation cleared: the count is the length of
    [keys_to_remove], which holds the user's key whether or not a session
    is stored under it. *)
Theorem forget_user_without_session (user_id target : string)
    (is_administrator : bool) (conversations : gmap string session) :
  lower target = "user" →
  conversations !! conversation_key user_id = None →
  forget user_id is_administrator target conversations =
    (conversations, MemoryReset 1 "your conversation history") ∧
  MemoryReset 1 "your conversation history" ≠ NothingToClear ∧
  MemoryReset 1 "your conversation history" ≠ MemoryReset 0 "your conversation history".
Proof.
  intros Huser Hnone. unfold forget. rewrite Huser.
  rewrite bool_decide_eq_true_2 by done.
  rewrite remove_keys_absent by done. by split_and!.
Qed.

Lemma forget_user_without_session_witness :
  let store := (get_conversation 3 "1" ∅).2 in
  forget "2" false "user" store =
    (store, MemoryReset 1 "your conversation history") ∧
  MemoryReset 1 "your conversation history" ≠ NothingToClear ∧
  MemoryReset 1 "your conversation history" ≠ MemoryReset 0 "your conversation history".
Proof.
  intros store.
  apply (forget_user_without_session "2" "user" false store); reflexivity.
Defined.

(** With a session stored the reply is the same and the session is gone. *)
Lemma forget_user_with_session (user_id target : string)
    (is_administrator : bool) (conversations : gmap string session) s :
  lower target = "user" →
  conversations !! conversation_key user_id = Some s →
  forget user_id is_administrator target conversations =
    (delete (conversation_key user_id) conversations,
     MemoryReset 1 "your conversation history").
Proof.
  intros Huser Hsome. unfold forget. rewrite Huser.
  rewrite bool_decide_eq_true_2 by done.
  by rewrite (remove_keys_present _ s).
Qed.

(** C6 (a sweep of the reaper).  [check_conversation_age] raises nothing.
    The store it leaves holds exactly the sessions whose age
    [current_time - created_at] does not exceed seven days, each as it was;
    [reset_count] is the number of sessions it removed, and that is the
    count the log line carries, which is written when it is positive.  Of
    three sessions aged six, seven and eight days only the last is
    removed. *)
Theorem reaper_sweep :
  (∀ current_time (conversations : gmap string session),
     ∃ conversations' reset_count,
       check_conversation_age current_time conversations =
         Some (conversations', reset_count,
               if bool_decide (0 < reset_count)%nat then Some reset_count else None) ∧
       conversations' =
         filter (λ kv, ¬ (current_time - created_at kv.2 > week)) conversations ∧
       (∀ key, conversations' !! key =
                 match conversations !! key with
                 | Some s =>
                     if bool_decide (current_time - created_at s > week)
                     then None else Some s
                 | None => None
                 end) ∧
       size conversations = (size conversations' + reset_count)%nat ∧
       reset_count =
         size (filter (λ kv, current_time - created_at kv.2 > week) conversations)) ∧
  (let now := 100 * day in
   let store :=
     (get_conversation (now - 6 * day) "six"
        (get_conversation (now - 7 * day) "seven"
           (get_conversation (now - 8 * day) "eight" ∅).2).2).2 in
   check_conversation_age now store =
     Some ({[ "user:six" := mkSession bot_template (now - 6 * day);
              "user:seven" := mkSession bot_template (now - 7 * day) ]},
           1%nat, Some 1%nat)).
Proof.
  split; [|vm_compute; reflexivity].
  intros now m. unfold check_conversation_age.
  destruct (sweep_spec now (map_to_list m) m 0%nat) as (m' & Hsw & Hsz & Hlk).
  { apply NoDup_fst_map_to_list. }
  { intros k v. apply elem_of_map_to_list. }
  cbn zeta in Hsw, Hsz, Hlk. rewrite Hsw. cbn [mbind option_bind].
  set (gone := filter (λ kv, now - created_at kv.2 > week) (map_to_list m)) in *.
  assert (Hkey : ∀ key, m' !! key =
            match m !! key with
            | Some s => if bool_decide (now - created_at s > week)
                        then None else Some s
            | None => None
            end).
  { intros key. rewrite Hlk. destruct (m !! key) as [s|] eqn:Hs.
    - case_decide as Hd; case_bool_decide as Hb; try done.
      + exfalso. apply list_elem_of_fmap in Hd as ([k v] & -> & Hkv).
        apply list_elem_of_filter in Hkv as [Hexp Hkv].
        apply elem_of_map_to_list in Hkv. simpl in *. congruence.
      + exfalso. apply Hd. apply list_elem_of_fmap. exists (key, s).
        split; [done|]. apply list_elem_of_filter. split; [done|].
        by apply elem_of_map_to_list.
    - by case_decide. }
  assert (Hfilter : m' = filter (λ kv, ¬ (now - created_at kv.2 > week)) m).
  { apply map_eq. intros key. rewrite Hkey, map_lookup_filter.
    destruct (m !! key) as [s|]; [|done]. simpl.
    case_bool_decide; case_guard; simpl in *; done. }
  exists m', (0 + length gone)%nat. split_and!; try done.
  pose proof (map_filter_union_complement
                (λ kv : string * session, now - created_at kv.2 > week) m) as Hu.
  pose proof (map_disjoint_filter_complement
                (λ kv : string * session, now - created_at kv.2 > week) m) as Hd.
  apply map_size_disj_union in Hd. rewrite Hu, <- Hfilter in Hd. lia.
Qed.

(** ** Further properties of the limiter *)

Section limiter_histories.
Implicit Types (self : RateLimiter) (key k : string) (l : list Z)
  (st : RateLimiter * list (string * Z)).

Lemma recent_length W c l : (length (recent W c l) ≤ length l)%nat.
Proof. apply length_filter. Qed.

Lemma recent_idemp W c l : recent W c (recent W c l) = recent W c l.
Proof. apply recent_recent. lia. Qed.

Lemma step_add_call_fst t k st :
  (step st (AddCall t k)).1 = (add_call t k st.1).2.
Proof. simpl. by destruct (add_call t k st.1). Qed.

Lemma step_add_call_snd t k st :
  (step st (AddCall t k)).2 =
  if (add_call t k st.1).1 then st.2 else st.2 ++ [(k, t)].
Proof. simpl. by destruct (add_call t k st.1). Qed.

Lemma step_config st i :
  max_calls (step st i).1 = max_calls st.1 ∧
  time_frame (step st i).1 = time_frame st.1.
Proof.
  destruct i as [t k|t k].
  - rewrite step_add_call_fst. apply add_call_config.
  - apply get_retry_after_config.
Qed.

(** What a step does to the records of a key. *)
Lemma step_records st i key :
  records key (step st i).1 =
  match i with
  | AddCall t k =>
      if decide (k = key) then
        let kept := recent (time_frame st.1) t (records key st.1) in
        if bool_decide (Z.of_nat (length kept) >= max_calls st.1)
        then kept else kept ++ [t]
      else records key st.1
  | GetRetryAfter _ _ => records key st.1
  end.
Proof.
  destruct i as [t k|t k].
  - rewrite step_add_call_fst. case_decide as Hk.
    + subst k. rewrite add_call_records, add_call_limited. done.
    + by apply add_call_records_ne.
  - apply get_retry_after_records.
Qed.

Lemma step_admitted st i key :
  admitted key (step st i).2 =
  match i with
  | AddCall t k =>
      if decide (k = key) then
        let kept := recent (time_frame st.1) t (records key st.1) in
        if bool_decide (Z.of_nat (length kept) >= max_calls st.1)
        then admitted key st.2 else admitted key st.2 ++ [t]
      else admitted key st.2
  | GetRetryAfter _ _ => admitted key st.2
  end.
Proof.
  destruct i as [t k|t k]; [|done].
  rewrite step_add_call_snd, add_call_limited.
  case_decide as Hk.
  - subst k. cbn zeta. case_bool_decide; [done|].
    by rewrite admitted_snoc, decide_True.
  - destruct (bool_decide _); [done|]. by rewrite admitted_snoc, decide_False.
Qed.

Lemma run_cons i ivs st : run (i :: ivs) st = run ivs (step st i).
Proof. done. Qed.

Lemma run_config ivs : ∀ st,
  max_calls (run ivs st).1 = max_calls st.1 ∧
  time_frame (run ivs st).1 = time_frame st.1.
Proof.
  induction ivs as [|i ivs IH]; intros st; [done|].
  rewrite run_cons. destruct (IH (step st i)) as [-> ->]. apply step_config.
Qed.

Lemma run_records_bounded ivs : ∀ st,
  (∀ k, Z.of_nat (length (records k st.1)) ≤ max_calls st.1) →
  ∀ k, Z.of_nat (length (records k (run ivs st).1)) ≤ max_calls st.1.
Proof.
  induction ivs as [|i ivs IH]; intros st Hst; [done|].
  rewrite run_cons. destruct (step_config st i) as [HM _].
  rewrite <- HM. apply IH. intros k. rewrite HM, step_records.
  destruct i as [t k0|t k0]; [|done].
  case_decide; [|done]. cbn zeta. subst k0.
  pose proof (recent_length (time_frame st.1) t (records k st.1)).
  specialize (Hst k).
  case_bool_decide; [lia|]. rewrite length_app. simpl. lia.
Qed.

(** Ascending lists are kept ascending by pruning and by appending an
    upper bound. *)
Lemma recent_sorted W c l :
  StronglySorted Z.le l → StronglySorted Z.le (recent W c l).
Proof.
  unfold recent. induction 1 as [|a l Hl IH Ha]; [constructor|].
  rewrite filter_cons. case_decide; [|done].
  constructor; [done|]. apply Forall_forall. intros b Hb.
  apply list_elem_of_filter in Hb as [_ Hb].
  by eapply Forall_forall in Ha.
Qed.

Lemma snoc_sorted l t :
  StronglySorted Z.le l → Forall (λ a, a ≤ t) l →
  StronglySorted Z.le (l ++ [t]).
Proof.
  induction 1 as [|a l Hl IH Ha]; intros Hle; simpl.
  - repeat constructor.
  - apply Forall_cons in Hle as [Hat Hle]. constructor; [by apply IH|].
    apply Forall_app. split; [done|]. by repeat constructor.
Qed.

Lemma py_min_head x l : Forall (λ a, x ≤ a) l → py_min x l = x.
Proof.
  unfold py_min. revert x. induction l as [|a l IH]; intros x Hx; [done|].
  apply Forall_cons in Hx as [Hxa Hx]. simpl.
  rewrite Z.min_l by done. by apply IH.
Qed.

Lemma run_records_sorted ivs : ∀ T st,
  (∀ k, StronglySorted Z.le (records k st.1) ∧
        Forall (λ a, a ≤ T) (records k st.1)) →
  clock_from T ivs →
  ∀ k, StronglySorted Z.le (records k (run ivs st).1).
Proof.
  induction ivs as [|i ivs IH]; intros T st Hst Hclock k.
  - apply Hst.
  - destruct Hclock as [HT Hclock]. rewrite run_cons.
    apply (IH (clock_of i)); [|done]. clear k. intros k.
    destruct (Hst k) as [Hs Hle]. rewrite step_records.
    assert (Hle' : Forall (λ a, a ≤ clock_of i) (records k st.1)).
    { eapply Forall_impl; [done|]. simpl. intros. lia. }
    destruct i as [t k0|t k0]; simpl in *; [|done].
    case_decide; [|done].
    assert (Forall (λ a, a ≤ t) (recent (time_frame st.1) t (records k st.1))).
    { apply Forall_forall. intros a Ha.
      apply list_elem_of_filter in Ha as [_ Ha].
      by eapply Forall_forall in Hle'. }
    case_bool_decide.
    + split; [by apply recent_sorted | done].
    + split.
      * apply snoc_sorted; [by apply recent_sorted | done].
      * apply Forall_app. split; [done|]. repeat constructor. lia.
Qed.

End limiter_histories.

(** X1.  From an empty limiter whose [max_calls] is not negative, whatever
    the invocations and whatever the clock does, no key ever holds more
    than [max_calls] records. *)
Theorem records_never_exceed_max_calls (M W : Z) (ivs : list invocation)
    (key : string) :
  0 ≤ M →
  Z.of_nat (length (records key (run ivs (init M W, [])).1)) ≤ M.
Proof.
  intros HM.
  apply (run_records_bounded ivs (init M W, [])). intros k.
  unfold records. simpl. rewrite lookup_empty. simpl. lia.
Qed.

Lemma records_never_exceed_max_calls_witness :
  Z.of_nat (length (records "u"
    (run [AddCall 5 "u"; AddCall 1 "u"; AddCall 9 "u"; AddCall 2 "u"]
         (init 2 10, [])).1)) ≤ 2.
Proof.
  apply (records_never_exceed_max_calls 2 10). lia.
Defined.

(** X2.  Against a clock that never runs backwards the records of every key
    are in ascending order, so the oldest record, which [get_retry_after]
    finds with [min], is the first one. *)
Theorem records_ascending (M W T : Z) (ivs : list invocation) (key : string) :
  clock_from T ivs →
  let l := records key (run ivs (init M W, [])).1 in
  StronglySorted Z.le l ∧ (∀ x r, l = x :: r → py_min x r = x).
Proof.
  intros Hclock l.
  assert (Hs : StronglySorted Z.le l).
  { apply (run_records_sorted ivs T (init M W, [])); [|done].
    intros k. unfold records. simpl. rewrite lookup_empty. simpl.
    split; constructor. }
  split; [done|]. intros x r Hl. rewrite Hl in Hs.
  apply StronglySorted_inv in Hs as [_ Hx]. by apply py_min_head.
Qed.

Lemma records_ascending_witness :
  let l := records "u"
    (run [AddCall 0 "u"; AddCall 1 "v"; AddCall 4 "u"; GetRetryAfter 5 "u";
          AddCall 12 "u"] (init 3 10, [])).1 in
  StronglySorted Z.le l ∧ (∀ x r, l = x :: r → py_min x r = x).
Proof.
  apply (records_ascending 3 10 0). simpl. lia.
Defined.

Section limiter_keys.
Implicit Types (self : RateLimiter) (key k : string)
  (st : RateLimiter * list (string * Z)).

Lemma agree_step_same key st1 st2 i :
  agree key st1 st2 → agree key (step st1 i) (step st2 i).
Proof.
  intros (HM & HW & Hr & Ha).
  destruct (step_config st1 i) as [HM1 HW1].
  destruct (step_config st2 i) as [HM2 HW2].
  unfold agree. rewrite !step_records, !step_admitted, HM1, HM2, HW1, HW2.
  split_and!; try done.
  - destruct i; [|done]. by rewrite HM, HW, Hr.
  - destruct i; [|done]. by rewrite HM, HW, Hr, Ha.
Qed.

Lemma agree_step_other key st1 st2 i :
  key_of i ≠ key → agree key st1 st2 → agree key (step st1 i) st2.
Proof.
  intros Hk (HM & HW & Hr & Ha).
  destruct (step_config st1 i) as [HM1 HW1].
  unfold agree. rewrite step_records, step_admitted, HM1, HW1.
  destruct i as [t k|t k]; simpl in Hk; [|done].
  by rewrite !decide_False.
Qed.

Lemma agree_run key ivs : ∀ st1 st2,
  agree key st1 st2 → agree key (run ivs st1) (run (for_key key ivs) st2).
Proof.
  induction ivs as [|i ivs IH]; intros st1 st2 Hag; [done|].
  unfold for_key. rewrite filter_cons, run_cons. case_decide as Hk.
  - rewrite run_cons. apply IH. by apply agree_step_same.
  - apply IH. by apply agree_step_other.
Qed.

Lemma run_for_key key ivs st :
  max_calls (run ivs st).1 = max_calls (run (for_key key ivs) st).1 ∧
  time_frame (run ivs st).1 = time_frame (run (for_key key ivs) st).1 ∧
  records key (run ivs st).1 = records key (run (for_key key ivs) st).1 ∧
  admitted key (run ivs st).2 = admitted key (run (for_key key ivs) st).2.
Proof. by apply agree_run. Qed.

End limiter_keys.

(** X3.  Keys do not interfere.  After any history, the records of a key,
    the calls admitted for it, and the answers the limiter gives next for
    it are those of the history with every invocation about another key
    left out. *)
Theorem keys_are_independent (key : string) (ivs : list invocation)
    (st : RateLimiter * list (string * Z)) (t : Z) :
  let self := (run ivs st).1 in
  let alone := (run (for_key key ivs) st).1 in
  records key self = records key alone ∧
  admitted key (run ivs st).2 = admitted key (run (for_key key ivs) st).2 ∧
  (add_call t key self).1 = (add_call t key alone).1 ∧
  (get_retry_after t key self).1 = (get_retry_after t key alone).1.
Proof.
  intros self alone.
  destruct (run_for_key key ivs st) as (HM & HW & Hr & Ha).
  fold self alone in HM, HW, Hr.
  split_and!; try done.
  - by rewrite !add_call_limited, HM, HW, Hr.
  - by rewrite !get_retry_after_value, HW, Hr.
Qed.

(** X4.  What [get_retry_after] promises after a refusal.  When [add_call]
    refuses a key whose records number at most [max_calls], the wait it
    then reports at the same reading is positive; asked again before that
    wait is over, [add_call] refuses again, and asked when it is over or
    later, it admits the call. *)
Theorem retry_after_is_exact (now t : Z) (key : string) (self : RateLimiter) :
  0 < max_calls self →
  Z.of_nat (length (records key self)) ≤ max_calls self →
  (add_call now key self).1 = true →
  let '(wait, self') := get_retry_after now key (add_call now key self).2 in
  0 < wait ∧
  (t < now + wait → (add_call t key self').1 = true) ∧
  (now + wait ≤ t → (add_call t key self').1 = false).
Proof.
  intros HM Hlen Hlim.
  pose proof (add_call_records now key self) as Hr.
  destruct (add_call_config now key self) as [HM1 HW1].
  rewrite Hlim in Hr. cbn zeta in Hr.
  rewrite add_call_limited in Hlim. apply bool_decide_eq_true in Hlim.
  set (self1 := (add_call now key self).2) in *.
  pose proof (get_retry_after_value now key self1) as Hv.
  pose proof (get_retry_after_records now key key self1) as Hr2.
  destruct (get_retry_after_config now key self1) as [HM2 HW2].
  destruct (get_retry_after now key self1) as [wait self2]. simpl in *.
  set (W := time_frame self) in *. set (kept := recent W now (records key self)) in *.
  rewrite Hr in Hv, Hr2.
  pose proof (recent_length W now (records key self)) as Hkl. fold kept in Hkl.
  destruct kept as [|x r] eqn:Hkept; [simpl in Hlim; lia|].
  rewrite HW1 in Hv.
  pose proof (py_min_elem x r) as Hin. destruct (py_min_le x r) as [Hx Hall].
  set (m := py_min x r) in *.
  assert (Hfresh : now - m < W).
  { rewrite <- Hkept in Hin. unfold kept in Hin.
    by apply list_elem_of_filter in Hin as [? _]. }
  assert (Hwait : wait = W - (now - m)) by lia.
  rewrite !add_call_limited, Hr2, HM2, HW2, HM1, HW1. fold W.
  split_and!; [lia | |].
  - intros Ht. apply bool_decide_eq_true.
    rewrite recent_all; [lia|].
    constructor; [lia|]. eapply Forall_impl; [exact Hall|]. simpl. intros. lia.
  - intros Ht. apply bool_decide_eq_false.
    assert (length (recent W t (x :: r)) < length (x :: r))%nat; [|lia].
    apply (length_filter_lt _ _ m); [done|]. lia.
Qed.

Lemma retry_after_is_exact_witness :
  let self := (run [AddCall 0 "u"; AddCall 1 "u"; AddCall 2 "u"] (init 3 10, [])).1 in
  let '(wait, self') := get_retry_after 3 "u" (add_call 3 "u" self).2 in
  0 < wait ∧
  (9 < 3 + wait → (add_call 9 "u" self').1 = true) ∧
  (3 + wait ≤ 9 → (add_call 9 "u" self').1 = false).
Proof.
  intros self.
  apply (retry_after_is_exact 3 9 "u" self); vm_compute; congruence.
Defined.

(** X5.  A refused call costs nothing.  It leaves the key with its records
    pruned and nothing added, leaves every other key alone, and asking
    again at the same reading is refused again and changes nothing more. *)
Theorem refused_call_is_free (t : Z) (key : string) (self : RateLimiter) :
  (add_call t key self).1 = true →
  let self' := (add_call t key self).2 in
  records key self' = recent (time_frame self) t (records key self) ∧
  (∀ k, k ≠ key → records k self' = records k self) ∧
  add_call t key self' = (true, self').
Proof.
  intros Hlim self'. split_and!.
  - subst self'. by rewrite add_call_records, Hlim.
  - intros k Hk. by apply add_call_records_ne.
  - subst self'. revert Hlim. unfold add_call.
    destruct (getitem key (calls self)) as [l c1].
    case_bool_decide as Hfull; [intros _|done]. simpl.
    unfold getitem. rewrite lookup_insert_eq. simpl.
    rewrite recent_idemp, insert_insert_eq.
    by rewrite bool_decide_eq_true_2.
Qed.

Lemma refused_call_is_free_witness :
  let self := (run [AddCall 0 "u"; AddCall 1 "u"] (init 2 10, [])).1 in
  let self' := (add_call 3 "u" self).2 in
  records "u" self' = recent (time_frame self) 3 (records "u" self) ∧
  (∀ k, k ≠ "u" → records k self' = records k self) ∧
  add_call 3 "u" self' = (true, self').
Proof.
  intros self.
  apply (refused_call_is_free 3 "u" self). reflexivity.
Defined.

(** ** The gate of the commands *)

(** X6.  Both gates charge both limiters, whatever they decide: afterwards
    each limiter holds, for every key, what its own [add_call] left.  The
    gate of [ask] lets the request through exactly when both admit it, and
    reports the user's refusal when both refuse; the gate of the media
    commands refuses exactly when one of them refuses. *)
Theorem gates_charge_both_limiters (t1 t2 t3 t4 : Z) (user_id : string)
    (user_limiter global_limiter : RateLimiter) :
  let u := add_call t1 user_id user_limiter in
  let g := add_call t2 "global" global_limiter in
  (let '(v, ul, gl) := ask_gate t1 t2 t3 user_id user_limiter global_limiter in
   (∀ k, records k ul = records k u.2) ∧ (∀ k, records k gl = records k g.2) ∧
   (v = Proceed ↔ u.1 = false ∧ g.1 = false) ∧
   (u.1 = true → ∃ wait, v = UserLimited wait)) ∧
  (let '(w, ul, gl) := media_gate t1 t2 t3 t4 user_id user_limiter global_limiter in
   (∀ k, records k ul = records k u.2) ∧ (∀ k, records k gl = records k g.2) ∧
   (w = None ↔ u.1 = false ∧ g.1 = false)).
Proof.
  intros u g. subst u g. unfold ask_gate, media_gate.
  destruct (add_call t1 user_id user_limiter) as [lu ul1].
  destruct (add_call t2 "global" global_limiter) as [lg gl1]. simpl.
  split.
  - destruct lu; [|destruct lg].
    + pose proof (λ k, get_retry_after_records t3 user_id k ul1) as Hr.
      destruct (get_retry_after t3 user_id ul1) as [r ul2]. simpl in Hr.
      split_and!; [intros; apply Hr | done | | eauto].
      split; [done | intros [? _]; done].
    + pose proof (λ k, get_retry_after_records t3 "global" k gl1) as Hr.
      destruct (get_retry_after t3 "global" gl1) as [r gl2]. simpl in Hr.
      split_and!; [done | intros; apply Hr | | done].
      split; [done | intros [_ ?]; done].
    + by split_and!.
  - destruct (lu || lg) eqn:Hor.
    + pose proof (λ k, get_retry_after_records t3 user_id k ul1) as Hr.
      destruct (get_retry_after t3 user_id ul1) as [r ul2]. simpl in Hr.
      pose proof (λ k, get_retry_after_records t4 "global" k gl1) as Hr'.
      destruct (get_retry_after t4 "global" gl1) as [r' gl2]. simpl in Hr'.
      split_and!; [intros; apply Hr | intros; apply Hr' |].
      split; [done|]. intros [-> ->]. done.
    + apply orb_false_iff in Hor as [-> ->]. by split_and!.
Qed.

(** X7.  A request that the user's limiter refuses still takes a slot of
    the global budget when the global limiter has room: the gate of [ask]
    answers with the user's refusal, and the global limiter has recorded
    the call. *)
Theorem user_refusal_spends_global_budget (t1 t2 t3 : Z) (user_id : string)
    (user_limiter global_limiter : RateLimiter) :
  (add_call t1 user_id user_limiter).1 = true →
  (add_call t2 "global" global_limiter).1 = false →
  let '(v, ul, gl) := ask_gate t1 t2 t3 user_id user_limiter global_limiter in
  (∃ wait, v = UserLimited wait) ∧
  records "global" gl =
    recent (time_frame global_limiter) t2 (records "global" global_limiter) ++ [t2] ∧
  records user_id ul =
    recent (time_frame user_limiter) t1 (records user_id user_limiter).
Proof.
  intros Hu Hg.
  pose proof (add_call_records t1 user_id user_limiter) as Hru.
  pose proof (add_call_records t2 "global" global_limiter) as Hrg.
  rewrite Hu in Hru. rewrite Hg in Hrg. cbn zeta in Hru, Hrg.
  unfold ask_gate.
  destruct (add_call t1 user_id user_limiter) as [lu ul1].
  destruct (add_call t2 "global" global_limiter) as [lg gl1].
  simpl in *. subst lu lg.
  pose proof (get_retry_after_records t3 user_id user_id ul1) as Hr.
  destruct (get_retry_after t3 user_id ul1) as [r ul2]. simpl in Hr.
  split_and!; [eauto | done | congruence].
Qed.

Lemma user_refusal_spends_global_budget_witness :
  let user_limiter := (run [AddCall 0 "7"] (init 1 60, [])).1 in
  let global_limiter := init 30 60 in
  let '(v, ul, gl) := ask_gate 1 1 1 "7" user_limiter global_limiter in
  (∃ wait, v = UserLimited wait) ∧
  records "global" gl =
    recent (time_frame global_limiter) 1 (records "global" global_limiter) ++ [1] ∧
  records "7" ul =
    recent (time_frame user_limiter) 1 (records "7" user_limiter).
Proof.
  intros user_limiter global_limiter.
  apply (user_refusal_spends_global_budget 1 1 1 "7" user_limiter global_limiter);
    reflexivity.
Defined.

(** X8.  A request that only the global limiter refuses still takes a slot
    of the user's own budget: the gate of [ask] answers with the global
    refusal, and the user's limiter has recorded the call. *)
Theorem global_refusal_spends_user_budget (t1 t2 t3 : Z) (user_id : string)
    (user_limiter global_limiter : RateLimiter) :
  (add_call t1 user_id user_limiter).1 = false →
  (add_call t2 "global" global_limiter).1 = true →
  let '(v, ul, gl) := ask_gate t1 t2 t3 user_id user_limiter global_limiter in
  (∃ wait, v = GlobalLimited wait) ∧
  records user_id ul =
    recent (time_frame user_limiter) t1 (records user_id user_limiter) ++ [t1] ∧
  records "global" gl =
    recent (time_frame global_limiter) t2 (records "global" global_limiter).
Proof.
  intros Hu Hg.
  pose proof (add_call_records t1 user_id user_limiter) as Hru.
  pose proof (add_call_records t2 "global" global_limiter) as Hrg.
  rewrite Hu in Hru. rewrite Hg in Hrg. cbn zeta in Hru, Hrg.
  unfold ask_gate.
  destruct (add_call t1 user_id user_limiter) as [lu ul1].
  destruct (add_call t2 "global" global_limiter) as [lg gl1].
  simpl in *. subst lu lg.
  pose proof (get_retry_after_records t3 "global" "global" gl1) as Hr.
  destruct (get_retry_after t3 "global" gl1) as [r gl2]. simpl in Hr.
  split_and!; [eauto | done | congruence].
Qed.

Lemma global_refusal_spends_user_budget_witness :
  let user_limiter := init 5 60 in
  let global_limiter := (run [AddCall 0 "global"] (init 1 60, [])).1 in
  let '(v, ul, gl) := ask_gate 1 1 1 "7" user_limiter global_limiter in
  (∃ wait, v = GlobalLimited wait) ∧
  records "7" ul =
    recent (time_frame user_limiter) 1 (records "7" user_limiter) ++ [1] ∧
  records "global" gl =
    recent (time_frame global_limiter) 1 (records "global" global_limiter).
Proof.
  intros user_limiter global_limiter.
  apply (global_refusal_spends_user_budget 1 1 1 "7" user_limiter global_limiter);
    reflexivity.
Defined.

(** ** Splitting a response *)

Section reply_facts.
Context {A : Type}.
Implicit Types (text : list A) (n m i : nat).
Local Open Scope nat_scope.

(** The number of elements of [range(0, stop, step)]. *)
Lemma range_count stop step :
  0 < step →
  let m := (stop + step - 1) / step in
  stop ≤ m * step ∧ (∀ k, k < m → k * step < stop).
Proof.
  intros Hstep m.
  pose proof (Nat.div_mod_eq (stop + step - 1) step) as Hdm.
  pose proof (Nat.mod_upper_bound (stop + step - 1) step ltac:(lia)) as Hmod.
  fold m in Hdm. split; [nia|]. intros k Hk. nia.
Qed.

Lemma py_range_lookup stop step i x :
  py_range stop step !! i = Some x ↔
  x = i * step ∧ i < (stop + step - 1) / step.
Proof.
  unfold py_range. rewrite list_lookup_fmap, fmap_Some. split.
  - intros (k & [-> Hk]%lookup_seq & ->). done.
  - intros [-> Hi]. exists i. split; [|done]. by apply lookup_seq.
Qed.

Lemma chunks_of_lookup n text i c :
  chunks_of n text !! i = Some c ↔
  c = take n (drop (i * n) text) ∧ i < (length text + n - 1) / n.
Proof.
  unfold chunks_of, slice. rewrite list_lookup_fmap, fmap_Some.
  setoid_rewrite py_range_lookup. split.
  - intros (x & [-> Hi] & ->). split; [|done]. f_equal. lia.
  - intros [-> Hi]. exists (i * n). split; [done|]. f_equal. lia.
Qed.

Lemma chunks_of_length n text :
  length (chunks_of n text) = (length text + n - 1) / n.
Proof. unfold chunks_of, py_range. by rewrite !length_fmap, length_seq. Qed.

Lemma concat_slices n text m :
  concat ((λ i, slice i (i + n) text) <$> ((λ k, k * n) <$> seq 0 m)) =
  take (m * n) text.
Proof.
  induction m as [|m IH]; [done|].
  rewrite seq_S, !fmap_app, concat_app, IH. simpl. rewrite app_nil_r.
  unfold slice. replace (m * n + n - m * n) with n by lia.
  rewrite take_take_drop. f_equal. lia.
Qed.

Lemma concat_chunks_of n text : 0 < n → concat (chunks_of n text) = text.
Proof.
  intros Hn. unfold chunks_of, py_range. rewrite concat_slices.
  apply take_ge. by apply range_count.
Qed.

Lemma chunk_length n text i c :
  0 < n → chunks_of n text !! i = Some c →
  0 < length c ≤ n ∧ (S i < length (chunks_of n text) → length c = n).
Proof.
  intros Hn [-> Hi]%chunks_of_lookup.
  rewrite chunks_of_length, length_take, length_drop.
  destruct (range_count (length text) n Hn) as [_ Hlt].
  pose proof (Hlt i Hi). split; [lia|]. intros Hnext.
  pose proof (Hlt (S i) Hnext). lia.
Qed.

Lemma descriptions_continued total (cs : list (list A)) :
  description <$> imap (λ i chunk, ResponseContinued (i + 2) total chunk) cs = cs.
Proof.
  apply list_eq. intros i. rewrite list_lookup_fmap, list_lookup_imap.
  by destruct (cs !! i).
Qed.

(** The embeds of a response, for any positive limit. *)
Lemma response_embeds_with_spec limit text :
  0 < limit →
  ∃ es, response_embeds_with limit text = Some es ∧
    concat (description <$> es) = text ∧
    Forall (λ e, length (description e) ≤ limit) es ∧
    (length text ≤ limit → es = [Response text]) ∧
    (limit < length text →
       1 < length es ∧
       ∀ i e, es !! i = Some e →
         match i with
         | O => ∃ d, e = ResponseFirst (length es) d
         | S _ => ∃ d, e = ResponseContinued (i + 1) (length es) d
         end).
Proof.
  intros Hlimit. unfold response_embeds_with. case_bool_decide as Hlong.
  - pose proof (concat_chunks_of limit text Hlimit) as Hcat.
    pose proof (chunks_of_length limit text) as Hlen.
    assert (1 < (length text + limit - 1) / limit) as Hmany.
    { apply Nat.div_le_lower_bound; lia. }
    assert (Hsize : Forall (λ c, length c ≤ limit) (chunks_of limit text)).
    { apply Forall_lookup. intros i c Hc.
      by destruct (chunk_length limit text i c Hlimit Hc) as [[_ ?] _]. }
    destruct (chunks_of limit text) as [|c0 cs] eqn:Hcs; [simpl in Hlen; lia|].
    simpl. eexists. split; [done|]. cbn [fmap list_fmap description].
    change (list_fmap _ _ description ?l) with (description <$> l).
    rewrite descriptions_continued.
    apply Forall_cons in Hsize as [Hc0 Hsize].
    split_and!; [done | | lia |].
    + constructor; [done|]. apply Forall_lookup. intros i e.
      rewrite list_lookup_imap, fmap_Some. intros (c & Hc & ->). simpl.
      by eapply Forall_lookup in Hsize.
    + intros _. cbn [length]. rewrite length_imap. simpl in Hlen. split; [lia|].
      intros [|i] e; simpl.
      * intros [= <-]. eauto.
      * rewrite list_lookup_imap, fmap_Some. intros (c & Hc & ->).
        replace (i + 2) with (S (i + 1)) by lia. eauto.
  - eexists. split; [done|]. simpl. rewrite app_nil_r.
    split_and!; [done | constructor; [simpl; lia | constructor] | done | lia].
Qed.

End reply_facts.

(** X9.  Splitting a text into chunks of a positive size loses nothing:
    the chunks, joined in order, are the text.  Every chunk is non-empty
    and at most [size] long, every chunk but the last is exactly [size]
    long, and there are [ceil(len / size)] of them. *)
Theorem chunks_partition_the_text {A} (size : nat) (text : list A) :
  (0 < size)%nat →
  concat (chunks_of size text) = text ∧
  length (chunks_of size text) = ((length text + size - 1) / size)%nat ∧
  (∀ i c, chunks_of size text !! i = Some c →
     (0 < length c ≤ size)%nat ∧
     (S i < length (chunks_of size text) → length c = size)%nat).
Proof.
  intros Hsize. split_and!.
  - by apply concat_chunks_of.
  - apply chunks_of_length.
  - intros i c Hc. by apply chunk_length.
Qed.

Lemma chunks_partition_the_text_witness :
  concat (chunks_of 3 [1; 2; 3; 4; 5; 6; 7]) = [1; 2; 3; 4; 5; 6; 7] ∧
  length (chunks_of 3 [1; 2; 3; 4; 5; 6; 7]) =
    ((length [1; 2; 3; 4; 5; 6; 7] + 3 - 1) / 3)%nat ∧
  (∀ i c, chunks_of 3 [1; 2; 3; 4; 5; 6; 7] !! i = Some c →
     (0 < length c ≤ 3)%nat ∧
     (S i < length (chunks_of 3 [1; 2; 3; 4; 5; 6; 7]) → length c = 3)%nat).
Proof.
  apply (chunks_partition_the_text 3 [1; 2; 3; 4; 5; 6; 7]). lia.
Defined.

(** X10.  The response formatting of [ask] and [on_message] never fails and
    sends the whole response: the descriptions of its embeds, joined in
    order, are the response text, and none is longer than 4000 characters.
    A response of at most 4000 characters goes out as one embed; a longer
    one goes out as two or more, the first numbered as part 1 and the
    [i]-th as part [i], each with the total. *)
Theorem response_embeds_carry_the_text {A} (response_text : list A) :
  ∃ es, response_embeds response_text = Some es ∧
    concat (description <$> es) = response_text ∧
    Forall (λ e, length (description e) ≤ 4000)%nat es ∧
    ((length response_text ≤ 4000)%nat → es = [Response response_text]) ∧
    ((4000 < length response_text)%nat →
       (1 < length es)%nat ∧
       ∀ i e, es !! i = Some e →
         match i with
         | O => ∃ d, e = ResponseFirst (length es) d
         | S _ => ∃ d, e = ResponseContinued (i + 1) (length es) d
         end).
Proof.
  apply (response_embeds_with_spec 4000 response_text). lia.
Qed.

(** ** Sessions: creation, expiry and deletion *)

Section session_facts.
Implicit Types (conversations m : gmap string session) (key k : string).

Lemma conversation_key_inj u v : conversation_key u = conversation_key v → u = v.
Proof. unfold conversation_key. intros H. by simplify_eq/=. Qed.

(** [remove_keys] unbinds the listed keys and nothing else. *)
Lemma remove_keys_lookup (l : list string) : ∀ m k,
  remove_keys l m !! k = if decide (k ∈ l) then None else m !! k.
Proof.
  unfold remove_keys.
  induction l as [|k0 l IH]; intros m k; cbn [foldl].
  - case_decide as Hin; [by apply elem_of_nil in Hin | done].
  - rewrite IH. destruct (decide (k = k0)) as [->|Hne].
    + rewrite (decide_True (P := k0 ∈ k0 :: l)) by left.
      case_decide; [done|].
      case_bool_decide as Hin; [by rewrite lookup_delete_eq|].
      destruct (m !! k0) eqn:E; [|done]. exfalso. by apply Hin.
    + assert (Hm : (if bool_decide (is_Some (m !! k0)) then delete k0 m else m)
                   !! k = m !! k).
      { case_bool_decide; [by rewrite lookup_delete_ne|done]. }
      rewrite Hm. case_decide as Hin1; case_decide as Hin2; try done.
      * exfalso. by apply Hin2; right.
      * exfalso. apply elem_of_cons in Hin2 as [?|?]; done.
Qed.

(** The sweep of the reaper, key by key. *)
Lemma check_conversation_age_lookup now m :
  ∃ m' n r, check_conversation_age now m = Some (m', n, r) ∧
    ∀ k, m' !! k =
      match m !! k with
      | Some s => if bool_decide (now - created_at s > week) then None else Some s
      | None => None
      end.
Proof.
  unfold check_conversation_age.
  destruct (sweep_spec now (map_to_list m) m 0%nat) as (m' & Hsw & _ & Hlk).
  { apply NoDup_fst_map_to_list. }
  { intros k v. apply elem_of_map_to_list. }
  cbn zeta in Hsw, Hlk. rewrite Hsw. cbn [mbind option_bind].
  eexists _, _, _. split; [done|].
  intros k. rewrite Hlk. destruct (m !! k) as [s|] eqn:Hs.
  - case_decide as Hd; case_bool_decide as Hb; try done.
    + exfalso. apply list_elem_of_fmap in Hd as ([k' v] & -> & Hkv).
      apply list_elem_of_filter in Hkv as [Hexp Hkv].
      apply elem_of_map_to_list in Hkv. simpl in *. congruence.
    + exfalso. apply Hd. apply list_elem_of_fmap. exists (k, s).
      split; [done|]. apply list_elem_of_filter. split; [done|].
      by apply elem_of_map_to_list.
  - by case_decide.
Qed.

(** Using a conversation that exists changes nothing. *)
Lemma get_conversation_present t u conversations s :
  conversations !! conversation_key u = Some s →
  get_conversation t u conversations = (chat s, conversations).
Proof. intros Hs. unfold get_conversation. by rewrite Hs. Qed.

Lemma timedelta_split (delta : Z) :
  let d := timedelta_days delta in
  let h := (timedelta_seconds delta `div` 3600)%Z in
  (0 ≤ h < 24 ∧
   d * day + h * (3600 * 1000000) ≤ delta < d * day + (h + 1) * (3600 * 1000000))%Z.
Proof.
  unfold timedelta_days, timedelta_seconds, day. cbn zeta.
  rewrite Z.div_div by lia.
  pose proof (Z.div_mod delta (86400 * 1000000) ltac:(lia)) as Hd.
  pose proof (Z.mod_pos_bound delta (86400 * 1000000) ltac:(lia)) as Hm.
  set (q := (delta `div` (86400 * 1000000))%Z) in *.
  set (r := (delta `mod` (86400 * 1000000))%Z) in *.
  pose proof (Z.div_mod r (1000000 * 3600) ltac:(lia)) as Hd'.
  pose proof (Z.mod_pos_bound r (1000000 * 3600) ltac:(lia)) as Hm'.
  set (h := (r `div` (1000000 * 3600))%Z) in *.
  lia.
Qed.

End session_facts.

(** X11.  [check_expiry] rounds the remaining life of a session down to the
    hour: the hours it shows are between 0 and 23, and the days and hours
    together are at most the time left until [created_at] plus seven days
    and miss it by less than an hour.  Without a session it says so. *)
Theorem check_expiry_rounds_down (now : Z) (user_id : string)
    (conversations : gmap string session) :
  match conversations !! conversation_key user_id with
  | None => check_expiry now user_id conversations = NoActiveConversation
  | Some s =>
      ∃ days_left hours_left,
        check_expiry now user_id conversations =
          ConversationExpiry days_left hours_left
            (created_at s) (created_at s + week) ∧
        0 ≤ hours_left < 24 ∧
        let left := created_at s + week - now in
        let hour := 3600 * 1000000 in
        days_left * day + hours_left * hour ≤ left
          < days_left * day + (hours_left + 1) * hour
  end.
Proof.
  unfold check_expiry.
  destruct (conversations !! conversation_key user_id) as [s|]; [|done].
  eexists _, _. split; [done|]. apply timedelta_split.
Qed.

(** X12.  The days shown by [check_expiry] are negative exactly for a
    session that the reaper would remove at that moment, so a session that
    is overdue but not yet swept shows a negative number of days.  Right
    after a sweep no session shows negative days, and a session that was
    not created in the future shows at most seven. *)
Theorem check_expiry_sign (now : Z) (user_id : string)
    (conversations : gmap string session) (s : session) :
  conversations !! conversation_key user_id = Some s →
  ∃ days_left hours_left created expires,
    check_expiry now user_id conversations =
      ConversationExpiry days_left hours_left created expires ∧
    (days_left < 0 ↔ now - created_at s > week) ∧
    (created_at s ≤ now → days_left ≤ 7) ∧
    ∃ swept n r,
      check_conversation_age now conversations = Some (swept, n, r) ∧
      (days_left < 0 ↔ swept !! conversation_key user_id = None) ∧
      (0 ≤ days_left → check_expiry now user_id swept =
                        check_expiry now user_id conversations).
Proof.
  intros Hs. unfold check_expiry at 1. rewrite Hs.
  eexists _, _, _, _. split; [done|].
  pose proof (timedelta_split (created_at s + week - now)) as Hsplit.
  cbn zeta in Hsplit.
  set (d := timedelta_days (created_at s + week - now)) in *.
  set (h := timedelta_seconds (created_at s + week - now) `div` 3600) in *.
  assert (Hsign : d < 0 ↔ now - created_at s > week).
  { clearbody d h. unfold week, day in *. lia. }
  split_and!; [done | clearbody d h; unfold week, day in *; lia |].
  destruct (check_conversation_age_lookup now conversations)
    as (swept & n & r & Hcca & Hlk).
  exists swept, n, r. split; [done|].
  specialize (Hlk (conversation_key user_id)). rewrite Hs in Hlk.
  split.
  - rewrite Hlk, Hsign. case_bool_decide as Hb; split; intros; done.
  - intros Hd. unfold check_expiry. rewrite Hlk, Hs.
    rewrite bool_decide_eq_false_2; [done|]. lia.
Qed.

Lemma check_expiry_sign_witness :
  let conversations := (get_conversation 0 "1" ∅).2 in
  let now := week + 3600 * 1000000 in
  ∃ days_left hours_left created expires,
    check_expiry now "1" conversations =
      ConversationExpiry days_left hours_left created expires ∧
    (days_left < 0 ↔ now - created_at (mkSession bot_template 0) > week) ∧
    (created_at (mkSession bot_template 0) ≤ now → days_left ≤ 7) ∧
    ∃ swept n r,
      check_conversation_age now conversations = Some (swept, n, r) ∧
      (days_left < 0 ↔ swept !! conversation_key "1" = None) ∧
      (0 ≤ days_left → check_expiry now "1" swept =
                        check_expiry now "1" conversations).
Proof.
  intros conversations now.
  apply (check_expiry_sign now "1" conversations (mkSession bot_template 0)).
  reflexivity.
Defined.

(** An hour after its expiry a session that was not swept yet shows
    "-1 days and 23 hours". *)
Example check_expiry_overdue :
  check_expiry (week + 3600 * 1000000) "1" (get_conversation 0 "1" ∅).2 =
  ConversationExpiry (-1) 23 0 week.
Proof. reflexivity. Qed.

(** X13.  Creation is idempotent.  After [get_conversation] the user has a
    session whose history is the one returned; its [created_at] is the
    reading of the call that created it, never a later one; no other key
    is touched; and a second call, at whatever time, returns the same
    history and leaves the store as it is. *)
Theorem get_conversation_is_idempotent (t1 t2 : Z) (user_id : string)
    (conversations : gmap string session) :
  let '(history, store) := get_conversation t1 user_id conversations in
  get_conversation t2 user_id store = (history, store) ∧
  (∃ s, store !! conversation_key user_id = Some s ∧ chat s = history ∧
        created_at s =
          match conversations !! conversation_key user_id with
          | Some old => created_at old
          | None => t1
          end) ∧
  (∀ k, k ≠ conversation_key user_id → store !! k = conversations !! k).
Proof.
  unfold get_conversation.
  destruct (conversations !! conversation_key user_id) as [s|] eqn:Hs.
  - rewrite Hs. split_and!; [done | by exists s | done].
  - rewrite lookup_insert_eq. split_and!; [done | by eexists |].
    intros k Hk. by rewrite lookup_insert_ne.
Qed.

(** X14.  Use does not prolong a session.  For a user without a session,
    let a first [get_conversation] at [t0] be followed by any number of
    further ones at the times [ts].  A sweep of the reaper at [now] then
    removes the session exactly when [now - t0] exceeds seven days, however
    recent the last use was. *)
Theorem use_does_not_prolong_a_session (t0 now : Z) (ts : list Z)
    (user_id : string) (conversations : gmap string session) :
  conversations !! conversation_key user_id = None →
  let store :=
    foldl (λ c t, (get_conversation t user_id c).2) conversations (t0 :: ts) in
  ∃ swept n r,
    check_conversation_age now store = Some (swept, n, r) ∧
    (swept !! conversation_key user_id = None ↔ now - t0 > week).
Proof.
  intros Hnone store.
  assert (Hstore : store !! conversation_key user_id = Some (mkSession bot_template t0)).
  { subst store. cbn [foldl]. unfold get_conversation at 2. rewrite Hnone.
    cbn [snd].
    assert (Hfirst : (<[conversation_key user_id := mkSession bot_template t0]>
                        conversations) !! conversation_key user_id
                     = Some (mkSession bot_template t0))
      by apply lookup_insert_eq.
    revert Hfirst.
    generalize (<[conversation_key user_id := mkSession bot_template t0]> conversations).
    induction ts as [|t ts IH]; intros c Hc; [done|].
    cbn [foldl]. apply IH. by rewrite (get_conversation_present _ _ _ _ Hc). }
  destruct (check_conversation_age_lookup now store) as (swept & n & r & Hcca & Hlk).
  exists swept, n, r. split; [done|].
  rewrite Hlk, Hstore. simpl. case_bool_decide; split; intros; done.
Qed.

Lemma use_does_not_prolong_a_session_witness :
  let store :=
    foldl (λ c t, (get_conversation t "1" c).2) ∅ (0 :: [6 * day; 7 * day]) in
  ∃ swept n r,
    check_conversation_age (7 * day + 1) store = Some (swept, n, r) ∧
    (swept !! conversation_key "1" = None ↔ 7 * day + 1 - 0 > week).
Proof.
  apply (use_does_not_prolong_a_session 0 (7 * day + 1) [6 * day; 7 * day] "1" ∅).
  reflexivity.
Defined.

(** X15.  For an administrator, [forget] with target [all] leaves the store
    empty and reports as many conversations as the store held; on an empty
    store it reports that none were found. *)
Theorem forget_all_empties_the_store (user_id target : string)
    (conversations : gmap string session) :
  lower target = "all" →
  forget user_id true target conversations =
    (∅, if decide (size conversations = 0%nat) then NothingToClear
        else MemoryReset (size conversations) "all conversation histories").
Proof.
  intros Hall. unfold forget. rewrite Hall.
  rewrite bool_decide_eq_false_2 by done.
  rewrite bool_decide_eq_true_2 by done. cbn [andb]. f_equal.
  - apply map_eq. intros k. rewrite remove_keys_lookup, lookup_empty.
    case_decide as Hin; [done|].
    destruct (conversations !! k) as [s|] eqn:Hs; [|done].
    exfalso. apply Hin. apply list_elem_of_fmap. exists (k, s).
    split; [done|]. by apply elem_of_map_to_list.
  - rewrite <- (length_map_to_list conversations).
    rewrite <- (length_fmap fst (map_to_list conversations)).
    by destruct ((map_to_list conversations).*1).
Qed.

Lemma forget_all_empties_the_store_witness :
  let store := (get_conversation 5 "2" (get_conversation 3 "1" ∅).2).2 in
  forget "9" true "All" store =
    (∅, if decide (size store = 0%nat) then NothingToClear
        else MemoryReset (size store) "all conversation histories").
Proof.
  intros store. apply (forget_all_empties_the_store "9" "All" store). reflexivity.
Defined.

(** X16.  [forget] with target [user] is scoped to the caller: it unbinds
    the caller's key and no other, so the session of any other user is the
    one it was, and it always reports one conversation. *)
Theorem forget_user_is_scoped (user_id target : string) (is_administrator : bool)
    (conversations : gmap string session) :
  lower target = "user" →
  let '(store, answer) := forget user_id is_administrator target conversations in
  answer = MemoryReset 1 "your conversation history" ∧
  store !! conversation_key user_id = None ∧
  (∀ k, k ≠ conversation_key user_id → store !! k = conversations !! k) ∧
  (∀ other, other ≠ user_id →
     store !! conversation_key other = conversations !! conversation_key other).
Proof.
  intros Huser. unfold forget. rewrite Huser.
  rewrite bool_decide_eq_true_2 by done.
  assert (Hk : ∀ k, k ≠ conversation_key user_id →
            remove_keys [conversation_key user_id] conversations !! k
            = conversations !! k).
  { intros k Hk. rewrite remove_keys_lookup. rewrite decide_False; [done|].
    by intros ->%list_elem_of_singleton. }
  split_and!; [done | | done |].
  - rewrite remove_keys_lookup. rewrite decide_True; [done|]. left.
  - intros other Hne. apply Hk. intros ?%conversation_key_inj. done.
Qed.

Lemma forget_user_is_scoped_witness :
  let conversations := (get_conversation 5 "2" (get_conversation 3 "1" ∅).2).2 in
  let '(store, answer) := forget "1" false "User" conversations in
  answer = MemoryReset 1 "your conversation history" ∧
  store !! conversation_key "1" = None ∧
  (∀ k, k ≠ conversation_key "1" → store !! k = conversations !! k) ∧
  (∀ other, other ≠ "1" →
     store !! conversation_key other = conversations !! conversation_key other).
Proof.
  intros conversations.
  apply (forget_user_is_scoped "1" "User" false conversations). reflexivity.
Defined.

(** X17.  [forget] only ever deletes: whatever the caller, the target and
    the store, every session of the resulting store was in the store
    before, unchanged.  A target that is neither [user] nor [all], in any
    capitalisation, changes nothing and is answered with the message that
    no conversations were found. *)
Theorem forget_only_deletes (user_id target : string) (is_administrator : bool)
    (conversations : gmap string session) :
  (forget user_id is_administrator target conversations).1 ⊆ conversations ∧
  (lower target ≠ "user" → lower target ≠ "all" →
   forget user_id is_administrator target conversations =
     (conversations, NothingToClear)).
Proof.
  assert (Hsub : ∀ l, remove_keys l conversations ⊆ conversations).
  { intros l. apply map_subseteq_spec. intros k s.
    rewrite remove_keys_lookup. by case_decide. }
  unfold forget. split.
  - repeat case_bool_decide; destruct is_administrator; cbn [fst andb]; auto; done.
  - intros Hu Ha. by rewrite !bool_decide_eq_false_2.
Qed.

(** ** Further properties of the retrying client *)

(** X18.  When all three attempts fail, [get_gemini_response] returns the
    error text made of the message of the last failure, after the sleeps
    of 2 and 4 and with no sleep after the third attempt. *)
Theorem exhausted_retries_report_last_error (service : nat → outcome)
    (e1 e2 e3 : string) :
  service 0%nat = Failed e1 → service 1%nat = Failed e2 →
  service 2%nat = Failed e3 →
  get_gemini_response service =
    (Some (difficulties e3), [Send 0; Sleep 2; Send 1; Sleep 4; Send 2]).
Proof.
  intros H0 H1 H2. unfold get_gemini_response. simpl.
  by rewrite H0, H1, H2.
Qed.

Lemma exhausted_retries_report_last_error_witness :
  get_gemini_response (scripted [Failed "dns"; Failed "reset"; Failed "timeout"]) =
    (Some (difficulties "timeout"), [Send 0; Sleep 2; Send 1; Sleep 4; Send 2]).
Proof.
  apply (exhausted_retries_report_last_error
           (scripted [Failed "dns"; Failed "reset"; Failed "timeout"])
           "dns" "reset" "timeout"); reflexivity.
Defined.

(** X19.  [get_gemini_response] is bounded.  Whatever the service does, it
    returns a text, calls the service in the iterations 0, 1 and 2 at most,
    sleeps 6 seconds in total at most, and its result is decided by the
    outcomes of those three calls alone. *)
Theorem get_gemini_response_is_bounded (service : nat → outcome) :
  let '(r, tr) := get_gemini_response service in
  is_Some r ∧
  (∀ n, Send n ∈ tr → (n < 3)%nat) ∧
  foldr Z.add 0 (sleeps tr) ≤ 6 ∧
  get_gemini_response (scripted [service 0%nat; service 1%nat; service 2%nat])
    = (r, tr).
Proof.
  unfold get_gemini_response, scripted. simpl.
  assert (Hsend : ∀ tr, Forall (λ ev, match ev with
                                      | Send n => (n < 3)%nat
                                      | Sleep _ => True
                                      end) tr →
                        ∀ n, Send n ∈ tr → (n < 3)%nat).
  { intros tr Htr n Hn. by eapply Forall_forall in Htr; [|done]. }
  destruct (service 0%nat); [| |destruct (service 1%nat);
    [| |destruct (service 2%nat)]];
    (split_and!; [by eexists | apply Hsend; repeat constructor; lia
                 | simpl; lia | done]).
Qed.

(** ** The web search *)

Section search_facts.
Implicit Types (item result : gmap string json).

Lemma result_of_lookup item :
  result_of item !! "title" = Some (default (JString "") (item !! "title")) ∧
  result_of item !! "link" = Some (default (JString "") (item !! "link")) ∧
  result_of item !! "snippet" =
    Some (default (JString "No description available.") (item !! "snippet")) ∧
  result_of item !! "thumbnail" = item !! "thumbnail".
Proof.
  unfold result_of. destruct (item !! "thumbnail") as [t|].
  - split_and!; by simplify_map_eq.
  - split_and!; by simplify_map_eq.
Qed.

Lemma format_from_total (results : list (gmap string json)) : ∀ i formatted,
  Forall (λ result, is_Some (result !! "title") ∧ is_Some (result !! "link") ∧
                    is_Some (result !! "snippet")) results →
  is_Some (format_from i results formatted).
Proof.
  induction results as [|result rest IH]; intros i formatted Hall; [by eexists|].
  apply Forall_cons in Hall as [([t Ht] & [l Hl] & [s Hs]) Hall].
  cbn [format_from]. rewrite Ht, Hl, Hs. cbn [mbind option_bind].
  by apply IH.
Qed.

End search_facts.


(** X21.  [format_search_results_for_gemini] never fails on what
    [perform_serpapi_search] returns: no result lacks a key that the
    formatting reads. *)
Theorem formatting_search_results_never_fails (serpapi_key : option string)
    (status : Z) (organic_results : option (list (gmap string json)))
    (results : list (gmap string json)) :
  perform_serpapi_search serpapi_key status organic_results = inr results →
  is_Some (format_search_results_for_gemini results).
Proof.
  unfold perform_serpapi_search.
  destruct serpapi_key as [[|c key]|]; [done| |done].
  case_bool_decide; [done|].
  intros Hres. apply format_from_total.
  destruct organic_results as [items|]; simplify_eq; [|constructor].
  apply Forall_fmap, Forall_forall. intros item _. simpl.
  destruct (result_of_lookup item) as (Ht & Hl & Hs & _).
  rewrite Ht, Hl, Hs. by split_and!.
Qed.

Lemma formatting_search_results_never_fails_witness :
  is_Some (format_search_results_for_gemini
    (result_of <$> take 8 [ {[ "title" := JString "Rocq" ]} ; ∅ ])).
Proof.
  apply (formatting_search_results_never_fails (Some "k") 200
           (Some [ {[ "title" := JString "Rocq" ]} ; ∅ ])).
  reflexivity.
Defined.

(** ** The tester's [forget] *)

Section tester_facts.
Context {V : Type}.
Implicit Types (m conversations : gmap string V) (key k : string).

Lemma append_cons c (s1 s2 : string) :
  String c s1 +:+ s2 = String c (s1 +:+ s2).
Proof. done. Qed.

Lemma ends_with_spec suffix key :
  ends_with suffix key = true ↔ ∃ front, key = front +:+ suffix.
Proof.
  induction key as [|c key IH]; cbn [ends_with].
  - destruct (String.eqb_spec "" suffix) as [<-|Hne].
    + split; [by exists ""|done].
    + split; [done|]. intros ([|c front] & Heq); [done|].
      rewrite append_cons in Heq. discriminate.
  - destruct (String.eqb_spec (String c key) suffix) as [<-|Hne].
    + split; [by exists ""|done].
    + rewrite IH. split.
      * intros [front ->]. by exists (String c front).
      * intros ([|c' front] & Heq); [done|].
        rewrite append_cons in Heq. injection Heq as -> ->. by exists front.
Qed.

Lemma prefix_spec (front key : string) :
  String.prefix front key = true ↔ ∃ rest, key = front +:+ rest.
Proof.
  revert key. induction front as [|c front IH]; intros key.
  - split; [intros _; by exists key | by destruct key].
  - destruct key as [|c' key]; cbn [String.prefix].
    + split; [done | by intros [rest ?]].
    + setoid_rewrite append_cons.
      destruct (Ascii.ascii_dec c c') as [<-|Hne].
      * rewrite IH. split; intros [rest Hr]; exists rest; congruence.
      * split; [done|]. intros [rest Hr]. congruence.
Qed.

(** Dropping distinct keys that are all bound: each one goes, the others
    stay, and the size falls by their number. *)
Lemma drop_keys_spec (l : list string) : ∀ m,
  NoDup l → (∀ k, k ∈ l → is_Some (m !! k)) →
  size m = (size (drop_keys l m) + length l)%nat ∧
  ∀ k, drop_keys l m !! k = if decide (k ∈ l) then None else m !! k.
Proof.
  unfold drop_keys.
  induction l as [|k0 l IH]; intros m Hnd Hin; cbn [foldl].
  - split; [simpl; lia|]. intros k.
    case_decide as Hk; [by apply elem_of_nil in Hk | done].
  - apply NoDup_cons in Hnd as [Hk0 Hnd].
    assert (Hm0 : is_Some (m !! k0)) by (apply Hin; left).
    rewrite bool_decide_eq_true_2 by done.
    destruct (IH (delete k0 m) Hnd) as [Hsz Hlk].
    { intros k Hk. rewrite lookup_delete_ne; [apply Hin; by right|].
      by intros ->. }
    split.
    + rewrite map_size_delete_Some in Hsz by done.
      assert (size m ≠ 0%nat).
      { intros Hz. apply map_size_empty_inv in Hz. subst m.
        rewrite lookup_empty in Hm0. by destruct Hm0. }
      simpl. lia.
    + intros k. rewrite Hlk. destruct (decide (k = k0)) as [->|Hne].
      * rewrite lookup_delete_eq.
        rewrite (decide_True (P := k0 ∈ k0 :: l)) by left. by case_decide.
      * rewrite lookup_delete_ne by done.
        case_decide as Hin1; case_decide as Hin2; try done.
        -- exfalso. by apply Hin2; right.
        -- exfalso. apply elem_of_cons in Hin2 as [?|?]; done.
Qed.

(** The same for the keys of the store that satisfy a test. *)
Lemma drop_selected_keys (P : string → Prop) `{!∀ k, Decision (P k)} m :
  let l := filter P (map_to_list m).*1 in
  size m = (size (drop_keys l m) + length l)%nat ∧
  ∀ k, drop_keys l m !! k = if decide (P k) then None else m !! k.
Proof.
  intros l.
  destruct (drop_keys_spec l m) as [Hsz Hlk].
  { apply NoDup_filter, NoDup_fst_map_to_list. }
  { intros k [_ Hk]%list_elem_of_filter.
    apply list_elem_of_fmap in Hk as ([k' v] & -> & Hkv).
    apply elem_of_map_to_list in Hkv. by exists v. }
  split; [done|]. intros k. rewrite Hlk.
  case_decide as Hin; case_decide as HP; try done.
  - by apply list_elem_of_filter in Hin as [? _].
  - destruct (m !! k) as [v|] eqn:Hv; [|done]. exfalso. apply Hin.
    apply list_elem_of_filter. split; [done|].
    apply list_elem_of_fmap. exists (k, v). split; [done|].
    by apply elem_of_map_to_list.
Qed.

End tester_facts.

(** X22.  In the tester, [forget] with target [channel] removes exactly the
    sessions whose key starts with the channel and a colon, and with
    target [all] exactly those whose key ends with a colon and the user;
    every other session stays as it is.  The count it prints is the number
    of sessions that went, and it prints that none were found when there
    was none. *)
Theorem tester_forget_counts_what_it_removes {V} (user_id channel_id target : string)
    (conversations : gmap string V) :
  lower target = "channel" ∨ lower target = "all" →
  let selected (key : string) : Prop :=
    if bool_decide (lower target = "channel")
    then ∃ rest, key = (channel_id +:+ ":") +:+ rest
    else ∃ front, key = front +:+ (":" +:+ user_id) in
  let '(store, answer) :=
    simulate_forget_command user_id channel_id target conversations in
  (∀ key v, store !! key = Some v ↔
            conversations !! key = Some v ∧ ¬ selected key) ∧
  ∃ count, size conversations = (size store + count)%nat ∧
           answer = match count with O => NoneFound | S _ => Cleared count end.
Proof.
  intros Htarget selected. unfold simulate_forget_command.
  assert (lower target ≠ "user") as Hnu by (destruct Htarget as [-> | ->]; done).
  rewrite (bool_decide_eq_false_2 _ Hnu).
  subst selected. cbn zeta. case_bool_decide as Hch.
  - destruct (drop_selected_keys
                (λ key, String.prefix (channel_id +:+ ":") key = true) conversations)
      as [Hsz Hlk].
    cbn zeta in Hsz, Hlk. split.
    + intros key v. rewrite Hlk. case_decide as Hp.
      * split; [done|]. intros [_ Hn]. exfalso. apply Hn.
        by apply prefix_spec.
      * split; [|by intros [? _]]. intros Hv. split; [done|].
        intros Hsel. apply Hp. by apply prefix_spec.
    + eexists. split; [exact Hsz|]. by destruct (filter _ _).
  - assert (lower target = "all") as Hall by (by destruct Htarget).
    rewrite (bool_decide_eq_true_2 _ Hall).
    destruct (drop_selected_keys
                (λ key, ends_with (":" +:+ user_id) key = true) conversations)
      as [Hsz Hlk].
    cbn zeta in Hsz, Hlk. split.
    + intros key v. rewrite Hlk. case_decide as Hp.
      * split; [done|]. intros [_ Hn]. exfalso. apply Hn.
        by apply ends_with_spec.
      * split; [|by intros [? _]]. intros Hv. split; [done|].
        intros Hsel. apply Hp. by apply ends_with_spec.
    + eexists. split; [exact Hsz|]. by destruct (filter _ _).
Qed.

Lemma tester_forget_counts_what_it_removes_witness :
  let conversations : gmap string nat :=
    {[ "c1:7" := 1%nat; "c1:8" := 2%nat; "c2:7" := 3%nat ]} in
  let selected (key : string) : Prop :=
    if bool_decide (lower "Channel" = "channel")
    then ∃ rest, key = ("c1" +:+ ":") +:+ rest
    else ∃ front, key = front +:+ (":" +:+ "7") in
  let '(store, answer) :=
    simulate_forget_command "7" "c1" "Channel" conversations in
  (∀ key v, store !! key = Some v ↔
            conversations !! key = Some v ∧ ¬ selected key) ∧
  ∃ count, size conversations = (size store + count)%nat ∧
           answer = match count with O => NoneFound | S _ => Cleared count end.
Proof.
  intros conversations.
  apply (tester_forget_counts_what_it_removes "7" "c1" "Channel" conversations).
  by left.
Defined.

(** Two of three sessions are in channel [c1]; one belongs to user 7 in
    another channel. *)
Example tester_forget_channel :
  simulate_forget_command "7" "c1" "channel"
    ({[ "c1:7" := 1%nat; "c1:8" := 2%nat; "c2:7" := 3%nat ]} : gmap string nat)
  = ({[ "c2:7" := 3%nat ]}, Cleared 2).
Proof. vm_compute. reflexivity. Qed.
